(** * erfserver: lineage graph reconstruction and canonical client identities

    A shallow embedding of [server.go] and of its stack and ordered-set
    utilities, followed by the properties of the three queries
    ([TotalClients], [RecentClients], [OperationsByClient]) and of [Append].

    Conventions of the embedding.
    - A Go [map[string]V] is a [gmap string V].  A map of pointers
      [map[string]*stringSet] is a [gmap string (option stringSet)]: a key can
      be absent, present with the nil pointer ([Some None]) or present with a
      set ([Some (Some s)]).  Reading a missing key yields the zero value.
    - [range] over a Go map visits the keys in an unspecified order.  Where
      the order can matter ([mapCanonicalIDs]) the order is an explicit
      argument, constrained to be an enumeration of the keys.
    - The unbounded work loop of [mapCanonicalIDs] takes fuel, one unit per
      iteration.
    - [time.Time] is an instant: seconds since the epoch and nanoseconds;
      the [int64] of [Unix] is a [Z], the instants being in its range.
    - The counters are [nat]: they count stored records or map entries,
      which a Go [int] holds.
    - The mutex is not modelled: every operation runs atomically. *)

From stdpp Require Import gmap strings list fin_maps.
From Stdlib Require Import ZArith Lia.

Open Scope string_scope.
Open Scope list_scope.
Open Scope nat_scope.

(** ** Stack and ordered set *)

(** [stringStack]: the slice [s.s]; the top of the stack is the last
    element. *)
Abbreviation stringStack := (list string).

(** [push]: [s.s = append(s.s, val)]. *)
Definition push (s : stringStack) (val : string) : stringStack := s ++ [val].

(** [pop]: [None] is the nil pointer returned on the empty stack; otherwise
    the last element and the shortened slice. *)
Definition pop (s : stringStack) : option (string * stringStack) :=
  match reverse s with
  | [] => None
  | res :: rest => Some (res, reverse rest)
  end.

(** [stringSet]: membership map and insertion-ordered keys. *)
Record stringSet := mkStringSet {
  set : gmap string bool;
  keys : list string;
}.

Definition newStringSet : stringSet := mkStringSet ∅ [].

(** [add]: a nil [s.set] reads like the empty map, so the lazy [make] is
    the identity on the model. *)
Definition add (s : stringSet) (val : string) : stringSet :=
  match set s !! val with
  | None => mkStringSet (<[val := true]> (set s)) (keys s ++ [val])
  | Some _ => s
  end.

(** [values]: a copy of the keys. *)
Definition values (s : stringSet) : list string := keys s.

(** ** Records and the server state *)

Record Time := mkTime { sec : Z; nsec : Z }.

(** [t.UTC().Unix()]. *)
Definition Unix (t : Time) : Z := sec t.

(** [t1] is not after [t2]. *)
Definition time_le (t1 t2 : Time) : Prop :=
  (sec t1 < sec t2)%Z ∨ (sec t1 = sec t2 ∧ (nsec t1 ≤ nsec t2)%Z).

Record record := mkRecord {
  subject : string;
  previous : string;
  operation : string;
  utcTime : Z;
}.

Record inMemoryERFServer := mkServer { records : list record }.

Definition NewInMemory : inMemoryERFServer := mkServer [].

Record adjacencyListPair := mkPair {
  incoming : gmap string (option stringSet);
  outgoing : gmap string (option stringSet);
}.

(** [m[k]] for a map of pointers: nil when the key is missing. *)
Definition index (m : gmap string (option stringSet)) (k : string)
  : option stringSet := default None (m !! k).

(** [if m[k] == nil { m[k] = newStringSet() }; m[k].add(v)]. *)
Definition addEdge (m : gmap string (option stringSet)) (k v : string)
  : gmap string (option stringSet) :=
  match index m k with
  | None => <[k := Some (add newStringSet v)]> m
  | Some s => <[k := Some (add s v)]> m
  end.

(** ** GraphBuilder *)

(** The guard [since != nil && record.utcTime < sinceUTC] of the loop. *)
Definition skipped (since : option Time) (r : record) : bool :=
  match since with
  | Some t => bool_decide (utcTime r < Unix t)%Z
  | None => false
  end.

(** One iteration of the loop of [adjacencyLists]. *)
Definition adjacencyStep (since : option Time) (res : adjacencyListPair)
    (r : record) : adjacencyListPair :=
  if skipped since r then res else
  let sub := subject r in
  let pre := previous r in
  let inc := <[sub := index (incoming res) sub]> (incoming res) in
  let out := <[sub := index (outgoing res) sub]> (outgoing res) in
  if bool_decide (pre ≠ "") then
    let out := addEdge out pre sub in
    let inc := addEdge inc sub pre in
    mkPair (<[pre := index inc pre]> inc) out
  else mkPair inc out.

Definition adjacencyLists (s : inMemoryERFServer) (since : option Time)
  : adjacencyListPair :=
  foldl (adjacencyStep since) (mkPair ∅ ∅) (records s).

(** ** ClientCounter *)

Definition countSinks (outgoingAdjacencyList : gmap string (option stringSet))
  : nat :=
  map_fold (λ _ value sinks,
              match value with None => S sinks | Some _ => sinks end)
           0 outgoingAdjacencyList.

Definition RecentClients (s : inMemoryERFServer) (since : Time) : nat :=
  countSinks (outgoing (adjacencyLists s (Some since))).

Definition TotalClients (s : inMemoryERFServer) : nat :=
  countSinks (outgoing (adjacencyLists s None)).

(** ** CanonicalIDResolver *)

(** How a run of the resolver ends: with a value, with the nil-pointer
    dereference [*id] of an empty [ids] stack, or out of fuel. *)
Inductive outcome (A : Type) : Type :=
  | Done (a : A)
  | Panic
  | OutOfFuel.
Arguments Done {A} a.
Arguments Panic {A}.
Arguments OutOfFuel {A}.

(** The loop [for x, child := range lists.outgoing[*n].values()], from
    index [x] on. *)
Fixpoint pushChildren (id : string) (x : nat) (children : list string)
    (nodes ids : stringStack) : stringStack * stringStack :=
  match children with
  | [] => (nodes, ids)
  | child :: rest =>
      let ids := if bool_decide (x = 0) then push ids id else push ids child in
      pushChildren id (S x) rest (push nodes child) ids
  end.

(** The loop [for n := &node; n != nil; n = nodes.pop()], entered with the
    current node [n]. *)
Fixpoint traverse (fuel : nat) (lists : adjacencyListPair) (n : string)
    (nodes ids : stringStack) (result : gmap string string)
  : outcome (gmap string string) :=
  match fuel with
  | 0 => OutOfFuel
  | S fuel =>
      match pop ids with
      | None => Panic
      | Some (id, ids) =>
          let result := <[n := id]> result in
          let '(nodes, ids) :=
            match index (outgoing lists) n with
            | Some children => pushChildren id 0 (values children) nodes ids
            | None => (nodes, ids)
            end in
          match pop nodes with
          | None => Done result
          | Some (n, nodes) => traverse fuel lists n nodes ids result
          end
      end
  end.

(** The outer loop [for node, incomingEdges := range lists.incoming] over
    the entries in the order [order]. *)
Fixpoint rangeIncoming (fuel : nat) (lists : adjacencyListPair)
    (order : list (string * option stringSet)) (result : gmap string string)
  : outcome (gmap string string) :=
  match order with
  | [] => Done result
  | (node, incomingEdges) :: order =>
      match incomingEdges with
      | None =>
          match traverse fuel lists node [] (push [] node) result with
          | Done result => rangeIncoming fuel lists order result
          | Panic => Panic
          | OutOfFuel => OutOfFuel
          end
      | Some _ => rangeIncoming fuel lists order result
      end
  end.

Definition mapCanonicalIDs (fuel : nat)
    (order : list (string * option stringSet)) (lists : adjacencyListPair)
  : outcome (gmap string string) :=
  rangeIncoming fuel lists order ∅.

(** [order] is one of the orders in which [range] can visit [m]. *)
Definition rangeOrder {V} (m : gmap string V) (order : list (string * V))
  : Prop := order ≡ₚ map_to_list m.

(** ** OperationAggregator *)

(** One iteration of the loop of [OperationsByClient].  A fingerprint
    without canonical ID reads as the empty string.  The inner map is shared
    with [result], so [clientOperations[record.operation]++] is an update of
    [result] at [clientID]; a missing inner map is first created empty. *)
Definition tally (canonicalIDs : gmap string string)
    (result : gmap string (gmap string nat)) (r : record)
  : gmap string (gmap string nat) :=
  let clientID := default "" (canonicalIDs !! subject r) in
  let clientOperations := default ∅ (result !! clientID) in
  <[clientID :=
      <[operation r := S (default 0 (clientOperations !! operation r))]>
        clientOperations]> result.

Definition OperationsByClient (fuel : nat)
    (order : list (string * option stringSet)) (s : inMemoryERFServer)
  : outcome (gmap string (gmap string nat)) :=
  let lists := adjacencyLists s None in
  match mapCanonicalIDs fuel order lists with
  | Done canonicalIDs => Done (foldl (tally canonicalIDs) ∅ (records s))
  | Panic => Panic
  | OutOfFuel => OutOfFuel
  end.

(** ** Append *)

Section LedgerStore.
(** The errors of the token library. *)
Variable cause : Type.

(** [errors.Wrap] keeps the cause below the message. *)
Inductive error : Type :=
  | External (e : cause)
  | Wrap (err : error) (message : string).

(** [erf.ErfClaims]: the two claims read by the server are pointers. *)
Record ErfClaims := mkClaims {
  Subject : option string;
  Previous : option string;
}.

(** [erf.ParseToken]: the error, or the claims when the error is nil. *)
Variable ParseToken : list Byte.byte → cause + ErfClaims.

Definition Append (s : inMemoryERFServer) (token : list Byte.byte)
    (operation : string) (time : Time)
  : outcome (option error * inMemoryERFServer) :=
  match ParseToken token with
  | inl err => Done (Some (Wrap (External err) "failed to read token"), s)
  | inr claims =>
      match Subject claims, Previous claims with
      | Some sub, Some pre =>
          Done (None,
                mkServer (records s ++ [mkRecord sub pre operation (Unix time)]))
      | _, _ => Panic
      end
  end.
End LedgerStore.

Arguments External {cause} e.
Arguments Wrap {cause} err message.
Arguments Append {cause} ParseToken s token operation time.

(** * Vocabulary of the properties *)

(** The membership map and the key list of a set agree, and no key is
    listed twice. *)
Definition stringSet_wf (s : stringSet) : Prop :=
  NoDup (keys s) ∧ ∀ v, v ∈ keys s ↔ is_Some (set s !! v).

(** The set obtained by adding the elements of [l] in order, or the nil
    pointer when there is nothing to add. *)
Definition setOf (l : list string) : option stringSet :=
  match l with
  | [] => None
  | _ => Some (foldl add newStringSet l)
  end.

(** The fingerprints named as predecessor: the non-empty [previous] fields. *)
Definition referenced (rs : list record) : list string :=
  filter (λ p, p ≠ "") (previous <$> rs).

(** The subjects of the records naming [p] as predecessor, in log order. *)
Definition successors (p : string) (rs : list record) : list string :=
  subject <$> filter (λ r, previous r = p ∧ previous r ≠ "") rs.

(** The predecessors named by the records of subject [k], in log order. *)
Definition predecessors (k : string) (rs : list record) : list string :=
  previous <$> filter (λ r, subject r = k ∧ previous r ≠ "") rs.

(** The records admitted by the time filter. *)
Definition admitted (since : option Time) (rs : list record) : list record :=
  filter (λ r, skipped since r = false) rs.

(** The keys of a map of pointers that hold the nil pointer. *)
Definition sinkSet (m : gmap string (option stringSet)) : gset string :=
  dom (filter (λ kv, kv.2 = None) m).

(** No record of a fingerprint is stamped later than a record naming that
    fingerprint as its predecessor. *)
Definition chronological (rs : list record) : Prop :=
  Forall (λ r, Forall (λ r', previous r' = subject r → previous r' ≠ "" →
                             (utcTime r ≤ utcTime r')%Z) rs) rs.

(** The successors of [n] in insertion order; none when [outgoing] holds no
    set for [n]. *)
Definition children (lists : adjacencyListPair) (n : string) : list string :=
  match index (outgoing lists) n with
  | Some s => values s
  | None => []
  end.

(** The children of a node paired with the identifier pushed along with
    each: the first inherits [id], the others start afresh. *)
Definition label (id : string) (cs : list string) : list (string * string) :=
  match cs with
  | [] => []
  | c :: rest => (c, id) :: ((λ c, (c, c)) <$> rest)
  end.

(** The work loop on one stack of pairs, most recent first.  The two stacks
    of [traverse] are the two projections of [todo], reversed. *)
Fixpoint walk (fuel : nat) (lists : adjacencyListPair) (n id : string)
    (todo : list (string * string)) (result : gmap string string)
  : outcome (gmap string string) :=
  match fuel with
  | 0 => OutOfFuel
  | S fuel =>
      let result := <[n := id]> result in
      match reverse (label id (children lists n)) ++ todo with
      | [] => Done result
      | (n', id') :: todo => walk fuel lists n' id' todo result
      end
  end.

(** The number of iterations of the work loop started at [n], counted down
    to depth [d]. *)
Fixpoint cost (lists : adjacencyListPair) (d : nat) (n : string) : nat :=
  match d with
  | 0 => 1
  | S d => S (sum_list_with (cost lists d) (children lists n))
  end.

(** The iterations spent on [n] when [rank] bounds the depth below it. *)
Definition weight (lists : adjacencyListPair) (rank : string → nat)
    (n : string) : nat := cost lists (rank n) n.

(** Every successor of a visited node is visited or still pending. *)
Definition closedUpTo (lists : adjacencyListPair) (visited : gset string)
    (pending : list string) : Prop :=
  ∀ x c, x ∈ visited → c ∈ children lists x → c ∈ visited ∨ c ∈ pending.

(** The lineage is a DAG: [rank] decreases along every predecessor link. *)
Definition lineageRanked (rank : string → nat) (rs : list record) : Prop :=
  Forall (λ r, previous r ≠ "" → rank (subject r) < rank (previous r)) rs.

(** Fuel for the longest work loop: the iterations of all loops together. *)
Definition fuelFor (lists : adjacencyListPair) (rank : string → nat) : nat :=
  sum_list_with (λ ne, weight lists rank ne.1) (map_to_list (incoming lists)).

(** The identifiers the resolver can write for a node: a root is its own
    identifier, a first successor inherits, a later successor starts
    afresh. *)
Inductive canonical (lists : adjacencyListPair) : string → string → Prop :=
  | canonical_root n :
      incoming lists !! n = Some None → canonical lists n n
  | canonical_first p c rest id :
      children lists p = c :: rest → canonical lists p id →
      canonical lists c id
  | canonical_later p c0 rest c :
      children lists p = c0 :: rest → c ∈ rest → canonical lists c c.

(** Every fingerprint has at most one predecessor. *)
Definition lineageForest (rs : list record) : Prop :=
  Forall (λ r1, Forall (λ r2, subject r1 = subject r2 →
                              previous r1 ≠ "" → previous r2 ≠ "" →
                              previous r1 = previous r2) rs) rs.

(** [canonicalIDs[k]]: the empty string when [k] has no identifier. *)
Definition resolve (canonicalIDs : gmap string string) (k : string) : string :=
  default "" (canonicalIDs !! k).

(** The sum of the counts of a client over all operation names. *)
Definition opsTotal (ops : gmap string nat) : nat :=
  map_fold (λ _ count total, count + total) 0 ops.

(** [result[clientID][op]], zero when either key is missing. *)
Definition opCount (result : gmap string (gmap string nat))
    (clientID op : string) : nat :=
  default 0 (default ∅ (result !! clientID) !! op).

(** [members] is closed under predecessors: each member is a subject, and
    every record of a member names a member as its predecessor. *)
Definition predecessorCycle (members : gset string) (rs : list record) : Prop :=
  Forall (λ x, x ∈ subject <$> rs) (elements members)
  ∧ Forall (λ r, subject r ∈ members →
                 previous r ≠ "" ∧ previous r ∈ members) rs.

(** Outside [members] the lineage is a DAG. *)
Definition rankedOutside (members : gset string) (rank : string → nat)
    (rs : list record) : Prop :=
  Forall (λ r, subject r ∉ members → previous r ≠ "" →
               rank (subject r) < rank (previous r)) rs.

(** The loop of [countSinks] when [range] yields the entries in the order
    [order]. *)
Definition countSinksIn (order : list (string * option stringSet)) : nat :=
  foldl (λ sinks kv, match kv.2 with None => S sinks | Some _ => sinks end)
        0 order.

(** The predecessors of [n] in insertion order; none when [incoming] holds
    no set for [n]. *)
Definition parents (lists : adjacencyListPair) (n : string) : list string :=
  match index (incoming lists) n with
  | Some s => values s
  | None => []
  end.

(** [c] is a successor of [p] in the graph. *)
Definition successorOf (lists : adjacencyListPair) (p c : string) : Prop :=
  c ∈ children lists p.

(** All the counts of a result of [OperationsByClient] together. *)
Definition grandTotal (result : gmap string (gmap string nat)) : nat :=
  map_fold (λ _ ops total, opsTotal ops + total) 0 result.

(** * Sample logs *)

(** A log on which a later threshold sees more sinks: [A] rotates to [B],
    [B] to [C], and [A] is seen again after the rotation. *)
Definition staleLog : list record :=
  [ mkRecord "B" "A" "op" 5; mkRecord "A" "" "op" 10; mkRecord "C" "B" "op" 10 ].

(** Two rotations in sequence: [A→B→C]. *)
Definition rotationLog : list record :=
  [ mkRecord "A" "" "op" 1; mkRecord "B" "A" "op" 5; mkRecord "C" "B" "op" 10 ].

(** Two fingerprints naming each other as predecessor. *)
Definition cycleLog : list record :=
  [ mkRecord "A" "B" "op" 1; mkRecord "B" "A" "op" 2 ].

(** The log of the repository's test: [A→B→C→D→{K,E}], [B→F→G→{L,M}],
    the unseen ["?"→H] and [J→I]. *)
Definition testLog : list record :=
  [ mkRecord "A" "" "op" 1; mkRecord "A" "" "op" 1;
    mkRecord "B" "A" "op" 1; mkRecord "B" "A" "op" 1; mkRecord "B" "A" "op" 1;
    mkRecord "C" "B" "op" 1;
    mkRecord "D" "C" "op" 1; mkRecord "D" "C" "op" 1;
    mkRecord "K" "D" "op" 1; mkRecord "E" "D" "op" 2;
    mkRecord "F" "B" "op" 2; mkRecord "G" "F" "op" 2; mkRecord "L" "G" "op" 2;
    mkRecord "M" "G" "op" 3; mkRecord "H" "?" "op" 1;
    mkRecord "J" "" "op" 1; mkRecord "I" "J" "op" 1 ].

(** A rank for [testLog] and [mixedLog]: it decreases along every link. *)
Definition testRank (n : string) : nat :=
  default 0
    ((list_to_map
        [ ("A", 5); ("B", 4); ("C", 3); ("D", 2); ("F", 2); ("G", 1);
          ("?", 1); ("J", 1) ] : gmap string nat) !! n).

Abbreviation testLists := (adjacencyLists (mkServer testLog) None).

(** [Y] and then [Z] succeed [X]; [Z] is reached again as the first
    successor of [P]. *)
Definition mergeLog : list record :=
  [ mkRecord "Y" "X" "op" 1; mkRecord "Z" "X" "op" 2;
    mkRecord "P" "Y" "op" 3; mkRecord "Z" "P" "op" 4 ].

(** [H] names a predecessor that is never a subject. *)
Definition unseenLog : list record := [ mkRecord "H" "?" "op" 1 ].

(** The identifiers of [testLog], as drawn in the repository's test. *)
Definition testIDs : gmap string string :=
  list_to_map
    [ ("A", "A"); ("B", "A"); ("C", "A"); ("D", "A"); ("K", "A"); ("E", "E");
      ("F", "F"); ("G", "F"); ("L", "F"); ("M", "M"); ("?", "?"); ("H", "?");
      ("J", "J"); ("I", "J") ].

(** The cycle of [cycleLog] next to a second cycle, [X↔Y], entered from the
    root [R]. *)
Definition loopLog : list record :=
  cycleLog ++ [ mkRecord "X" "R" "op" 3; mkRecord "Y" "X" "op" 4;
                mkRecord "X" "Y" "op" 5 ].

(** The cycle [P↔Q] next to the rotation [A→B]. *)
Definition mixedLog : list record :=
  [ mkRecord "P" "Q" "op" 1; mkRecord "Q" "P" "op" 2;
    mkRecord "A" "" "op" 3; mkRecord "B" "A" "get" 4 ].

(** A cycle [X↔Y] entered from the root [R], and nothing else. *)
Definition spinLog : list record :=
  [ mkRecord "X" "R" "op" 1; mkRecord "Y" "X" "op" 2;
    mkRecord "X" "Y" "op" 3 ].

(** A token reader for the examples: the empty token is rejected, any
    other token carries the rotation [A→B]. *)
Definition sampleParse (token : list Byte.byte) : string + ErfClaims :=
  match token with
  | [] => inl "empty token"
  | _ => inr (mkClaims (Some "B") (Some "A"))
  end.

(** * Properties *)

(** ** The stack *)

Lemma pop_nil : pop [] = None.
Proof. reflexivity. Qed.

Lemma pop_push s val : pop (push s val) = Some (val, s).
Proof. unfold pop, push. by rewrite reverse_snoc, reverse_involutive. Qed.

(** ** The ordered set *)

Lemma newStringSet_wf : stringSet_wf newStringSet.
Proof.
  split; [constructor|]. intros v. cbn. rewrite lookup_empty.
  split; [by intros ?%elem_of_nil | by intros [? ?]].
Qed.

Lemma add_keys s val :
  stringSet_wf s →
  keys (add s val) = if decide (val ∈ keys s) then keys s else keys s ++ [val].
Proof.
  intros [_ Hk]. unfold add. destruct (set s !! val) eqn:E.
  - rewrite decide_True; [done|]. apply Hk. eauto.
  - rewrite decide_False; [done|]. rewrite Hk, E. by intros [? ?].
Qed.

Lemma add_wf s val : stringSet_wf s → stringSet_wf (add s val).
Proof.
  intros [Hnd Hk]. unfold add. destruct (set s !! val) eqn:E; [done|].
  assert (val ∉ keys s) as Hfresh by (rewrite Hk, E; by intros [? ?]).
  split; cbn.
  - apply NoDup_app. split_and!; [done| |apply NoDup_singleton].
    intros x Hx ->%list_elem_of_singleton. done.
  - intros v. rewrite elem_of_app, list_elem_of_singleton, Hk.
    destruct (decide (v = val)) as [->|Hne].
    + rewrite lookup_insert_eq. split; eauto.
    + rewrite lookup_insert_ne by done. split; [intros [?|?]; done | eauto].
Qed.

Lemma foldl_add_wf l : stringSet_wf (foldl add newStringSet l).
Proof.
  induction l as [|x l IH] using rev_ind; [apply newStringSet_wf|].
  rewrite foldl_app. cbn. by apply add_wf.
Qed.

Lemma foldl_add_elem l v : v ∈ keys (foldl add newStringSet l) ↔ v ∈ l.
Proof.
  induction l as [|x l IH] using rev_ind.
  - done.
  - rewrite foldl_app. cbn. rewrite add_keys by apply foldl_add_wf.
    case_decide as Hin; rewrite ?elem_of_app, ?list_elem_of_singleton, IH.
    + split; [tauto|]. intros [?| ->]; [done|]. by apply IH.
    + done.
Qed.

Lemma setOf_snoc l v :
  setOf (l ++ [v]) = Some (add (default newStringSet (setOf l)) v).
Proof.
  unfold setOf at 1. destruct (l ++ [v]) eqn:E.
  { by destruct l. }
  rewrite <- E, foldl_app. cbn. by destruct l.
Qed.

Lemma setOf_wf l s : setOf l = Some s → stringSet_wf s.
Proof.
  destruct l as [|x l]; [done|]. intros [= <-]. apply (foldl_add_wf (x :: l)).
Qed.

Lemma setOf_elem l s v : setOf l = Some s → v ∈ keys s ↔ v ∈ l.
Proof.
  destruct l as [|x l]; [done|]. intros [= <-]. apply (foldl_add_elem (x :: l)).
Qed.

Lemma setOf_None l : setOf l = None ↔ l = [].
Proof. by destruct l. Qed.

(** The first element added stays the first key. *)
Lemma setOf_head v l : ∃ rest, keys (foldl add newStringSet (v :: l)) = v :: rest.
Proof.
  induction l as [|x l [rest IH]] using rev_ind.
  - by exists [].
  - rewrite app_comm_cons, foldl_snoc.
    rewrite add_keys by apply foldl_add_wf. rewrite IH.
    case_decide; eauto.
Qed.

(** ** The graph of a record sequence *)

Lemma adjacencyLists_snoc rs r since :
  adjacencyLists (mkServer (rs ++ [r])) since
  = adjacencyStep since (adjacencyLists (mkServer rs) since) r.
Proof. unfold adjacencyLists. cbn. by rewrite foldl_app. Qed.

Lemma foldl_adjacencyStep_admitted since rs acc :
  foldl (adjacencyStep since) acc rs
  = foldl (adjacencyStep None) acc (admitted since rs).
Proof.
  revert acc. induction rs as [|r rs IH]; intros acc; [done|].
  unfold admitted. rewrite filter_cons. cbn [foldl].
  unfold adjacencyStep at 2. destruct (skipped since r) eqn:E.
  - rewrite decide_False by done. apply IH.
  - rewrite decide_True by done. cbn [foldl]. rewrite IH. done.
Qed.

Lemma adjacencyLists_admitted s since :
  adjacencyLists s since
  = adjacencyLists (mkServer (admitted since (records s))) None.
Proof. apply foldl_adjacencyStep_admitted. Qed.

Lemma index_insert_index m k j : index (<[k := index m k]> m) j = index m j.
Proof.
  unfold index at 1 3. destruct (decide (k = j)) as [->|Hne].
  - by rewrite lookup_insert_eq.
  - by rewrite lookup_insert_ne.
Qed.

Lemma index_addEdge m k v j :
  index (addEdge m k v) j
  = if decide (j = k) then Some (add (default newStringSet (index m k)) v)
    else index m j.
Proof.
  unfold addEdge. case_decide as Hj.
  - subst j. destruct (index m k); unfold index; by rewrite lookup_insert_eq.
  - destruct (index m k); unfold index; by rewrite lookup_insert_ne.
Qed.

Lemma dom_addEdge m k v : dom (addEdge m k v) = {[k]} ∪ dom m.
Proof. unfold addEdge. destruct (index m k); apply dom_insert_L. Qed.

(** What a key holds is fixed by the domain and by [index]. *)
Lemma lookup_index (m : gmap string (option stringSet)) k :
  m !! k = if decide (k ∈ dom m) then Some (index m k) else None.
Proof.
  unfold index. case_decide as Hk.
  - apply elem_of_dom in Hk as [v ->]. done.
  - by apply not_elem_of_dom in Hk.
Qed.

(** The effect of one admitted record on the two maps. *)
Section step.
Variables (res : adjacencyListPair) (r : record).
Let res' := adjacencyStep None res r.

Lemma dom_outgoing_step :
  dom (outgoing res')
  = {[subject r]} ∪ list_to_set (referenced [r]) ∪ dom (outgoing res).
Proof.
  subst res'. unfold adjacencyStep, referenced. cbn [skipped fmap list_fmap].
  rewrite filter_cons, filter_nil.
  case_bool_decide; case_decide; try done; cbn [outgoing];
    rewrite ?dom_addEdge, ?dom_insert_L; set_solver.
Qed.

Lemma dom_incoming_step :
  dom (incoming res')
  = {[subject r]} ∪ list_to_set (referenced [r]) ∪ dom (incoming res).
Proof.
  subst res'. unfold adjacencyStep, referenced. cbn [skipped fmap list_fmap].
  rewrite filter_cons, filter_nil.
  case_bool_decide; case_decide; try done; cbn [incoming];
    rewrite ?dom_insert_L, ?dom_addEdge, ?dom_insert_L; set_solver.
Qed.

Lemma index_outgoing_step p :
  index (outgoing res') p
  = if decide (previous r = p ∧ previous r ≠ "")
    then Some (add (default newStringSet (index (outgoing res) p)) (subject r))
    else index (outgoing res) p.
Proof.
  subst res'. unfold adjacencyStep. cbn [skipped].
  case_bool_decide as Hpre; cbn [outgoing].
  - rewrite index_addEdge, !index_insert_index.
    case_decide as Hp; case_decide as Hq; try (exfalso; naive_solver).
    + by subst p.
    + done.
  - rewrite index_insert_index, decide_False by naive_solver. done.
Qed.

Lemma index_incoming_step k :
  index (incoming res') k
  = if decide (subject r = k ∧ previous r ≠ "")
    then Some (add (default newStringSet (index (incoming res) k)) (previous r))
    else index (incoming res) k.
Proof.
  subst res'. unfold adjacencyStep. cbn [skipped].
  case_bool_decide as Hpre; cbn [incoming].
  - rewrite index_insert_index, index_addEdge, !index_insert_index.
    case_decide as Hp; case_decide as Hq; try (exfalso; naive_solver).
    + by subst k.
    + done.
  - rewrite index_insert_index, decide_False by naive_solver. done.
Qed.
End step.

Lemma referenced_app rs1 rs2 :
  referenced (rs1 ++ rs2) = referenced rs1 ++ referenced rs2.
Proof. unfold referenced. by rewrite fmap_app, filter_app. Qed.

Lemma successors_snoc p rs r :
  successors p (rs ++ [r])
  = successors p rs
    ++ (if decide (previous r = p ∧ previous r ≠ "") then [subject r] else []).
Proof.
  unfold successors. rewrite filter_app, fmap_app, filter_cons, filter_nil.
  by case_decide.
Qed.

Lemma predecessors_snoc k rs r :
  predecessors k (rs ++ [r])
  = predecessors k rs
    ++ (if decide (subject r = k ∧ previous r ≠ "") then [previous r] else []).
Proof.
  unfold predecessors. rewrite filter_app, fmap_app, filter_cons, filter_nil.
  by case_decide.
Qed.

(** The two maps of the unfiltered graph, read off the log. *)
Section graph.
Variable rs : list record.
Let lists := adjacencyLists (mkServer rs) None.

Lemma dom_outgoing :
  dom (outgoing lists)
  = list_to_set (subject <$> rs) ∪ list_to_set (referenced rs).
Proof.
  subst lists. induction rs as [|r l IH] using rev_ind; [set_solver|].
  rewrite adjacencyLists_snoc, dom_outgoing_step, IH.
  rewrite referenced_app, fmap_app, !list_to_set_app_L. set_solver.
Qed.

Lemma dom_incoming :
  dom (incoming lists)
  = list_to_set (subject <$> rs) ∪ list_to_set (referenced rs).
Proof.
  subst lists. induction rs as [|r l IH] using rev_ind; [set_solver|].
  rewrite adjacencyLists_snoc, dom_incoming_step, IH.
  rewrite referenced_app, fmap_app, !list_to_set_app_L. set_solver.
Qed.

Lemma index_outgoing p :
  index (outgoing lists) p = setOf (successors p rs).
Proof.
  subst lists. induction rs as [|r l IH] using rev_ind; [done|].
  rewrite adjacencyLists_snoc, index_outgoing_step, successors_snoc, IH.
  case_decide; [by rewrite setOf_snoc | by rewrite app_nil_r].
Qed.

Lemma index_incoming k :
  index (incoming lists) k = setOf (predecessors k rs).
Proof.
  subst lists. induction rs as [|r l IH] using rev_ind; [done|].
  rewrite adjacencyLists_snoc, index_incoming_step, predecessors_snoc, IH.
  case_decide; [by rewrite setOf_snoc | by rewrite app_nil_r].
Qed.
End graph.

(** ** Sinks *)

Lemma elem_of_sinkSet m k : k ∈ sinkSet m ↔ m !! k = Some None.
Proof.
  unfold sinkSet. rewrite elem_of_dom. split.
  - intros [v [Hk Hv]%map_lookup_filter_Some]. cbn in Hv. by subst v.
  - intros Hk. exists None. by apply map_lookup_filter_Some.
Qed.

Lemma countSinks_comm (z1 z2 : option stringSet) (y : nat) :
  match z1 with None => S (match z2 with None => S y | Some _ => y end)
              | Some _ => match z2 with None => S y | Some _ => y end end
  = match z2 with None => S (match z1 with None => S y | Some _ => y end)
                | Some _ => match z1 with None => S y | Some _ => y end end.
Proof. by destruct z1, z2. Qed.

Lemma countSinks_size m : countSinks m = size (sinkSet m).
Proof.
  unfold countSinks, sinkSet. induction m as [|i x m Hi IH] using map_ind.
  - by rewrite map_fold_empty, map_filter_empty, dom_empty_L, size_empty.
  - rewrite map_fold_insert_L; [|intros; apply countSinks_comm|done].
    rewrite IH. destruct x as [s|].
    + rewrite map_filter_insert_not'; [done|done|]. intros y. by rewrite Hi.
    + rewrite map_filter_insert_True by done.
      rewrite dom_insert_L, size_union, size_singleton; [done|].
      apply disjoint_singleton_l. rewrite elem_of_dom.
      intros [v [Hv _]%map_lookup_filter_Some]. by rewrite Hi in Hv.
Qed.

(** A sink contributes exactly one to the count. *)
Lemma countSinks_delete m k :
  m !! k = Some None → countSinks m = S (countSinks (delete k m)).
Proof.
  intros Hk. unfold countSinks.
  rewrite (map_fold_delete_L _ _ k None); [done| |done].
  intros. apply countSinks_comm.
Qed.

Lemma successors_elem p rs c :
  c ∈ successors p rs ↔ ∃ r, r ∈ rs ∧ subject r = c ∧ previous r = p ∧ p ≠ "".
Proof.
  unfold successors. rewrite list_elem_of_fmap. split.
  - intros (r & -> & [[Hp Hne] Hr]%list_elem_of_filter). exists r. by subst p.
  - intros (r & Hr & <- & <- & Hne). exists r. split; [done|].
    by apply list_elem_of_filter.
Qed.

Lemma predecessors_elem k rs p :
  p ∈ predecessors k rs ↔ ∃ r, r ∈ rs ∧ subject r = k ∧ previous r = p ∧ p ≠ "".
Proof.
  unfold predecessors. rewrite list_elem_of_fmap. split.
  - intros (r & -> & [[Hp Hne] Hr]%list_elem_of_filter). by exists r.
  - intros (r & Hr & <- & <- & Hne). exists r. split; [done|].
    by apply list_elem_of_filter.
Qed.

Lemma referenced_elem rs p :
  p ∈ referenced rs ↔ ∃ r, r ∈ rs ∧ previous r = p ∧ p ≠ "".
Proof.
  unfold referenced. rewrite list_elem_of_filter, list_elem_of_fmap. naive_solver.
Qed.

Lemma successors_nil p rs : successors p rs = [] ↔ p ∉ referenced rs.
Proof.
  rewrite referenced_elem. split.
  - intros Hnil (r & Hr & Hp & Hne).
    assert (subject r ∈ successors p rs) as Hin by (apply successors_elem; eauto).
    rewrite Hnil in Hin. by apply elem_of_nil in Hin.
  - intros Hno. destruct (successors p rs) as [|c l] eqn:E; [done|].
    exfalso. apply Hno.
    assert (c ∈ successors p rs) as Hin by (rewrite E; left).
    apply successors_elem in Hin as (r & ? & ? & ? & ?). eauto.
Qed.

(** A fingerprint holds the nil pointer in [outgoing] exactly when it is the
    subject of a record and no record names it as predecessor. *)
Lemma outgoing_sink rs k :
  outgoing (adjacencyLists (mkServer rs) None) !! k = Some None
  ↔ k ∈ subject <$> rs ∧ k ∉ referenced rs.
Proof.
  rewrite lookup_index, dom_outgoing, index_outgoing.
  case_decide as Hdom.
  - split.
    + intros [= Hnil%setOf_None%successors_nil]. split; [|done].
      apply elem_of_union in Hdom as [H|H]; by apply elem_of_list_to_set in H.
    + intros [_ Hno%successors_nil%setOf_None]. by rewrite Hno.
  - split; [done|]. intros [Hs _]. exfalso. apply Hdom.
    apply elem_of_union_l. by apply elem_of_list_to_set.
Qed.

Lemma sinkSet_outgoing rs :
  sinkSet (outgoing (adjacencyLists (mkServer rs) None))
  = list_to_set (subject <$> rs) ∖ list_to_set (referenced rs).
Proof.
  apply set_eq. intros k.
  rewrite elem_of_sinkSet, outgoing_sink, elem_of_difference.
  by rewrite !elem_of_list_to_set.
Qed.

Lemma RecentClients_admitted s since :
  RecentClients s since
  = TotalClients (mkServer (admitted (Some since) (records s))).
Proof. unfold RecentClients, TotalClients. by rewrite adjacencyLists_admitted. Qed.

Lemma admitted_elem since rs r :
  r ∈ admitted (Some since) rs ↔ r ∈ rs ∧ (Unix since ≤ utcTime r)%Z.
Proof.
  unfold admitted. rewrite list_elem_of_filter. cbn.
  rewrite bool_decide_eq_false. split; intros [? ?]; split; try done; lia.
Qed.

(** C2.  [TotalClients] is the number of distinct subjects of the log that no
    record names as its (non-empty) predecessor; a subject is counted once
    however many records carry it. *)
Theorem TotalClients_unreferenced_subjects (rs : list record) :
  TotalClients (mkServer rs)
  = length (remove_dups (filter (λ k, k ∉ referenced rs) (subject <$> rs))).
Proof.
  unfold TotalClients. rewrite countSinks_size, sinkSet_outgoing.
  rewrite <- (size_list_to_set (C := gset string)) by apply NoDup_remove_dups.
  f_equal. apply set_eq. intros k.
  rewrite elem_of_difference, !elem_of_list_to_set.
  rewrite elem_of_remove_dups, list_elem_of_filter. tauto.
Qed.

Lemma add_existing s v : stringSet_wf s → v ∈ keys s → add s v = s.
Proof.
  intros [_ Hk] [b Hb]%Hk. unfold add. by rewrite Hb.
Qed.

Lemma map_eq_index (m1 m2 : gmap string (option stringSet)) :
  dom m1 = dom m2 → (∀ k, index m1 k = index m2 k) → m1 = m2.
Proof.
  intros Hdom Hidx. apply map_eq. intros k.
  by rewrite !lookup_index, Hdom, Hidx.
Qed.

Lemma admitted_filter since rs :
  admitted (Some since) rs = filter (λ r, (Unix since ≤ utcTime r)%Z) rs.
Proof.
  unfold admitted. apply list_filter_iff. intros r. cbn.
  rewrite bool_decide_eq_false. lia.
Qed.

(** C1, as stated, fails: on [staleLog] the count rises from 1 to 2 when the
    threshold moves from 0 to 10. *)
Lemma RecentClients_not_monotone :
  time_le (mkTime 0 0) (mkTime 10 0)
  ∧ RecentClients (mkServer staleLog) (mkTime 0 0) = 1
  ∧ RecentClients (mkServer staleLog) (mkTime 10 0) = 2
  ∧ ¬ (RecentClients (mkServer staleLog) (mkTime 10 0)
       ≤ RecentClients (mkServer staleLog) (mkTime 0 0)).
Proof.
  split; [left; cbn; lia|].
  assert (RecentClients (mkServer staleLog) (mkTime 0 0) = 1) as H0
    by (vm_compute; reflexivity).
  assert (RecentClients (mkServer staleLog) (mkTime 10 0) = 2) as H10
    by (vm_compute; reflexivity).
  rewrite H0, H10. repeat split. lia.
Qed.

(** C1, amended.  On a log in which no record of a fingerprint is stamped
    later than a record naming it as predecessor, [RecentClients] does not
    increase when the threshold increases. *)
Theorem RecentClients_antitone (rs : list record) (t1 t2 : Time) :
  chronological rs →
  time_le t1 t2 →
  RecentClients (mkServer rs) t2 ≤ RecentClients (mkServer rs) t1.
Proof.
  intros Hchrono Hle.
  assert (Unix t1 ≤ Unix t2)%Z as HU by (unfold Unix; destruct Hle; lia).
  rewrite !RecentClients_admitted. unfold TotalClients.
  rewrite !countSinks_size. apply subseteq_size. intros k. cbn [records].
  rewrite !sinkSet_outgoing, !elem_of_difference, !elem_of_list_to_set.
  rewrite !list_elem_of_fmap, !referenced_elem.
  intros [(r & -> & [Hr Ht]%admitted_elem) Hno]. split.
  - exists r. split; [done|]. apply admitted_elem. split; [done|lia].
  - intros (r' & [Hr' Ht']%admitted_elem & Hp & Hne). apply Hno.
    exists r'. split; [|done]. apply admitted_elem. split; [done|].
    unfold chronological in Hchrono. rewrite Forall_forall in Hchrono.
    specialize (Hchrono r Hr). rewrite Forall_forall in Hchrono.
    specialize (Hchrono r' Hr' Hp). rewrite Hp in Hchrono.
    specialize (Hchrono Hne). lia.
Qed.

Lemma RecentClients_antitone_witness :
  RecentClients (mkServer rotationLog) (mkTime 10 0)
  ≤ RecentClients (mkServer rotationLog) (mkTime 2 500).
Proof.
  apply (RecentClients_antitone rotationLog (mkTime 2 500) (mkTime 10 0)).
  - unfold chronological, rotationLog. repeat constructor; cbn; intros; done || lia.
  - left. cbn. lia.
Defined.

(** C8.  The graph behind [RecentClients since] is the graph of the records
    with [utcTime >= since] alone; a fingerprint that is a subject inside
    the window and is named as predecessor only by records before the
    window holds no outgoing set there, and is counted as one client. *)
Theorem RecentClients_window (rs : list record) (since : Time) (k : string) :
  (∃ r, r ∈ rs ∧ subject r = k ∧ (Unix since ≤ utcTime r)%Z) →
  (∀ r, r ∈ rs → previous r = k → previous r ≠ "" →
        (utcTime r < Unix since)%Z) →
  adjacencyLists (mkServer rs) (Some since)
  = adjacencyLists
      (mkServer (filter (λ r, (Unix since ≤ utcTime r)%Z) rs)) None
  ∧ outgoing (adjacencyLists (mkServer rs) (Some since)) !! k = Some None
  ∧ RecentClients (mkServer rs) since
    = S (countSinks
           (delete k (outgoing (adjacencyLists (mkServer rs) (Some since))))).
Proof.
  intros (r & Hr & Hk & Ht) Hout.
  assert (outgoing (adjacencyLists (mkServer rs) (Some since)) !! k = Some None)
    as Hsink.
  { rewrite adjacencyLists_admitted. cbn [records]. apply outgoing_sink. split.
    - apply list_elem_of_fmap. exists r. split; [done|]. by apply admitted_elem.
    - rewrite referenced_elem. intros (r' & [Hr' Ht']%admitted_elem & Hp & Hne).
      subst k. specialize (Hout r' Hr' Hp). rewrite Hp in Hout.
      specialize (Hout Hne). lia. }
  split_and!.
  - by rewrite adjacencyLists_admitted, admitted_filter.
  - done.
  - unfold RecentClients. by apply countSinks_delete.
Qed.

Lemma RecentClients_window_witness :
  adjacencyLists (mkServer staleLog) (Some (mkTime 10 0))
  = adjacencyLists
      (mkServer (filter (λ r, (Unix (mkTime 10 0) ≤ utcTime r)%Z) staleLog))
      None
  ∧ outgoing (adjacencyLists (mkServer staleLog) (Some (mkTime 10 0))) !! "A"
    = Some None
  ∧ RecentClients (mkServer staleLog) (mkTime 10 0)
    = S (countSinks
           (delete "A"
              (outgoing (adjacencyLists (mkServer staleLog)
                           (Some (mkTime 10 0)))))).
Proof.
  apply (RecentClients_window staleLog (mkTime 10 0) "A").
  - exists (mkRecord "A" "" "op" 10). split_and!; [|done|cbn; lia].
    unfold staleLog. set_solver.
  - unfold staleLog.
    intros r Hr Hp _. repeat (apply elem_of_cons in Hr as [->|Hr]); cbn in *;
      try done; try lia. by apply elem_of_nil in Hr.
Defined.

(** C9.  A further record whose subject and predecessor repeat those of a
    record already in the log changes neither map of the graph, hence not
    [TotalClients]. *)
Theorem TotalClients_duplicate (rs : list record) (r r0 : record) :
  r0 ∈ rs → subject r = subject r0 → previous r = previous r0 →
  adjacencyLists (mkServer (rs ++ [r])) None = adjacencyLists (mkServer rs) None
  ∧ TotalClients (mkServer (rs ++ [r])) = TotalClients (mkServer rs).
Proof.
  intros Hr0 Hs Hp.
  assert (adjacencyLists (mkServer (rs ++ [r])) None
          = adjacencyLists (mkServer rs) None) as Heq.
  { assert (∀ a b : adjacencyListPair,
               incoming a = incoming b → outgoing a = outgoing b → a = b)
      as Hext by (intros [] []; cbn; congruence).
    assert (subject r ∈ subject <$> rs) as Hsub.
    { rewrite Hs. by apply list_elem_of_fmap_2. }
    assert ((list_to_set (referenced [r]) : gset string)
            ⊆ list_to_set (referenced rs)) as Href.
    { intros p. rewrite !elem_of_list_to_set, !referenced_elem.
      intros (r' & ->%list_elem_of_singleton & Hq & Hne).
      exists r0. split; [done|]. split; [congruence|done]. }
    apply (elem_of_list_to_set (C := gset string)) in Hsub.
    apply Hext; apply map_eq_index.
    - rewrite !dom_incoming, fmap_app, referenced_app, !list_to_set_app_L.
      cbn [fmap list_fmap]. set_solver.
    - intros k. rewrite !index_incoming, predecessors_snoc.
      case_decide as Hk; [|by rewrite app_nil_r].
      rewrite setOf_snoc. destruct Hk as [Hk Hne].
      assert (previous r ∈ predecessors k rs) as Hin.
      { apply predecessors_elem. exists r0. split_and!; congruence. }
      destruct (setOf (predecessors k rs)) as [s|] eqn:E.
      + cbn. rewrite add_existing; [done|by eapply setOf_wf|].
        by eapply setOf_elem.
      + apply setOf_None in E. rewrite E in Hin. by apply elem_of_nil in Hin.
    - rewrite !dom_outgoing, fmap_app, referenced_app, !list_to_set_app_L.
      cbn [fmap list_fmap]. set_solver.
    - intros p. rewrite !index_outgoing, successors_snoc.
      case_decide as Hk; [|by rewrite app_nil_r].
      rewrite setOf_snoc. destruct Hk as [Hk Hne].
      assert (subject r ∈ successors p rs) as Hin.
      { apply successors_elem. exists r0. split_and!; congruence. }
      destruct (setOf (successors p rs)) as [s|] eqn:E.
      + cbn. rewrite add_existing; [done|by eapply setOf_wf|].
        by eapply setOf_elem.
      + apply setOf_None in E. rewrite E in Hin. by apply elem_of_nil in Hin. }
  split; [done|]. unfold TotalClients. by rewrite Heq.
Qed.

Lemma TotalClients_duplicate_witness :
  TotalClients (mkServer (rotationLog ++ [mkRecord "B" "A" "other" 77]))
  = TotalClients (mkServer rotationLog).
Proof.
  apply (TotalClients_duplicate rotationLog (mkRecord "B" "A" "other" 77)
           (mkRecord "B" "A" "op" 5)); [|done|done].
  unfold rotationLog. set_solver.
Defined.

(** ** The traversal *)

Lemma pushChildren_later id x cs nodes ids :
  pushChildren id (S x) cs nodes ids = (nodes ++ cs, ids ++ cs).
Proof.
  revert x nodes ids. induction cs as [|c cs IH]; intros x nodes ids; cbn.
  - by rewrite !app_nil_r.
  - rewrite IH. unfold push. rewrite bool_decide_eq_false_2 by done.
    by rewrite <- !app_assoc.
Qed.

Lemma pushChildren_label id cs nodes ids :
  pushChildren id 0 cs nodes ids
  = (nodes ++ (label id cs).*1, ids ++ (label id cs).*2).
Proof.
  destruct cs as [|c cs]; cbn.
  - by rewrite !app_nil_r.
  - rewrite pushChildren_later. unfold push.
    rewrite bool_decide_eq_true_2 by done.
    rewrite <- !app_assoc, <- !list_fmap_compose.
    change (fst ∘ (λ c0 : string, (c0, c0))) with (λ c0 : string, c0).
    change (snd ∘ (λ c0 : string, (c0, c0))) with (λ c0 : string, c0).
    assert ((λ c0 : string, c0) <$> cs = cs) as ->; [|done].
    clear. induction cs as [|c cs IH]; [done|]. cbn. by rewrite IH.
Qed.

Lemma pop_reverse_cons x l : pop (reverse (x :: l)) = Some (x, reverse l).
Proof. rewrite reverse_cons. apply pop_push. Qed.

Lemma traverse_walk fuel lists n id todo result :
  traverse fuel lists n (reverse todo.*1) (push (reverse todo.*2) id) result
  = walk fuel lists n id todo result.
Proof.
  revert n id todo result.
  induction fuel as [|fuel IH]; intros n id todo result; [done|].
  cbn [traverse walk]. rewrite pop_push.
  assert (∀ nodes ids,
    match index (outgoing lists) n with
    | Some s => pushChildren id 0 (values s) nodes ids
    | None => (nodes, ids)
    end = (nodes ++ (label id (children lists n)).*1,
           ids ++ (label id (children lists n)).*2)) as ->.
  { intros nodes ids. unfold children.
    destruct (index (outgoing lists) n).
    - apply pushChildren_label.
    - cbn. by rewrite !app_nil_r. }
  set (new := label id (children lists n)).
  assert (reverse todo.*1 ++ new.*1 = reverse ((reverse new ++ todo).*1)) as ->.
  { by rewrite fmap_app, fmap_reverse, reverse_app, reverse_involutive. }
  assert (reverse todo.*2 ++ new.*2 = reverse ((reverse new ++ todo).*2)) as ->.
  { by rewrite fmap_app, fmap_reverse, reverse_app, reverse_involutive. }
  destruct (reverse new ++ todo) as [|[n' id'] todo']; [done|].
  cbn [fmap list_fmap fst snd]. rewrite pop_reverse_cons.
  rewrite reverse_cons. apply IH.
Qed.

Lemma traverse_root fuel lists node result :
  traverse fuel lists node [] (push [] node) result
  = walk fuel lists node node [] result.
Proof. apply (traverse_walk fuel lists node node []). Qed.

Lemma label_fst id cs : (label id cs).*1 = cs.
Proof.
  destruct cs as [|c cs]; [done|]. cbn. f_equal.
  induction cs as [|c' cs IH]; [done|]. cbn. by rewrite IH.
Qed.

Lemma label_nil id cs : label id cs = [] → cs = [].
Proof. by destruct cs. Qed.

Lemma sum_list_with_le {A} (f g : A → nat) l :
  (∀ x, x ∈ l → f x ≤ g x) → sum_list_with f l ≤ sum_list_with g l.
Proof.
  induction l as [|x l IH]; intros Hfg; cbn; [done|].
  assert (f x ≤ g x) as Hx by (apply Hfg; left).
  assert (sum_list_with f l ≤ sum_list_with g l) as Hl
    by (apply IH; intros y Hy; apply Hfg; by right).
  lia.
Qed.

Lemma sum_list_with_fst {A B} (f : A → nat) (l : list (A * B)) :
  sum_list_with (λ ab, f ab.1) l = sum_list_with f l.*1.
Proof. induction l as [|x l IH]; cbn; [done|]. by rewrite IH. Qed.

Section walk.
Variable lists : adjacencyListPair.

(** *** What the loop writes *)
Section writes.
Variable P : string → string → Prop.
Hypothesis P_children :
  ∀ n id, P n id → Forall (λ ci, P ci.1 ci.2) (label id (children lists n)).

Lemma walk_writes fuel n id todo result res :
  P n id → Forall (λ ci, P ci.1 ci.2) todo → map_Forall P result →
  walk fuel lists n id todo result = Done res → map_Forall P res.
Proof.
  revert n id todo result.
  induction fuel as [|fuel IH]; intros n id todo result Hn Htodo Hres;
    [done|].
  cbn [walk].
  assert (Forall (λ ci, P ci.1 ci.2)
            (reverse (label id (children lists n)) ++ todo)) as Hall.
  { apply Forall_app. split; [|done]. apply Forall_reverse. auto. }
  assert (map_Forall P (<[n := id]> result)) as Hres'
    by by apply map_Forall_insert_2.
  destruct (reverse (label id (children lists n)) ++ todo)
    as [|[n' id'] todo'].
  - by intros [= <-].
  - apply Forall_cons in Hall as [Hn' Htodo']. by apply IH.
Qed.

Lemma rangeIncoming_writes fuel order result res :
  Forall (λ ne, ne.2 = None → P ne.1 ne.1) order → map_Forall P result →
  rangeIncoming fuel lists order result = Done res → map_Forall P res.
Proof.
  revert result. induction order as [|[node [s|]] order IH];
    intros result Horder Hres; cbn [rangeIncoming].
  - by intros [= <-].
  - apply Forall_cons in Horder as [_ Horder]. by apply IH.
  - apply Forall_cons in Horder as [Hnode Horder].
    rewrite traverse_root.
    destruct (walk fuel lists node node [] result) as [r| |] eqn:E;
      [|done|done].
    apply IH; [done|].
    eapply walk_writes; [by apply Hnode|constructor|done|done].
Qed.
End writes.

(** *** Termination *)
Section terminates.
Variable rank : string → nat.
Variable V : string → Prop.
Hypothesis V_closed :
  ∀ n c, V n → c ∈ children lists n → V c ∧ rank c < rank n.

Lemma cost_pos d n : 1 ≤ cost lists d n.
Proof. destruct d; cbn; lia. Qed.

Lemma cost_mono d n : cost lists d n ≤ cost lists (S d) n.
Proof.
  revert n. induction d as [|d IH]; intros n.
  - cbn. lia.
  - cbn [cost]. apply le_n_S, sum_list_with_le. intros c _. apply IH.
Qed.

Lemma cost_le d d' n : d ≤ d' → cost lists d n ≤ cost lists d' n.
Proof.
  induction 1 as [|d' _ IH]; [done|]. etrans; [apply IH|apply cost_mono].
Qed.

Lemma weight_children n :
  V n →
  S (sum_list_with (weight lists rank) (children lists n))
  ≤ weight lists rank n.
Proof.
  intros Hn. unfold weight at 2. destruct (rank n) as [|d] eqn:E.
  - destruct (children lists n) as [|c cs] eqn:Ec; [done|].
    destruct (V_closed n c Hn) as [_ Hlt]; [rewrite Ec; left|lia].
  - cbn [cost]. apply le_n_S, sum_list_with_le. intros c Hc.
    unfold weight. apply cost_le.
    destruct (V_closed n c Hn Hc) as [_ Hlt]. lia.
Qed.

Lemma walk_terminates fuel n id todo result :
  V n → Forall (λ ci, V ci.1) todo →
  weight lists rank n
    + sum_list_with (λ ci, weight lists rank ci.1) todo ≤ fuel →
  ∃ res, walk fuel lists n id todo result = Done res.
Proof.
  revert n id todo result.
  induction fuel as [|fuel IH]; intros n id todo result Hn Htodo Hfuel.
  { pose proof (cost_pos (rank n) n). unfold weight in Hfuel. lia. }
  cbn [walk]. pose proof (weight_children n Hn) as Hw.
  assert (Forall (λ ci, V ci.1)
            (reverse (label id (children lists n)) ++ todo)) as Hall.
  { apply Forall_app. split; [|done]. apply Forall_reverse.
    apply Forall_forall. intros [c i] Hc. cbn.
    apply (V_closed n c Hn). rewrite <- (label_fst id).
    by apply (list_elem_of_fmap_2 fst) in Hc. }
  assert (sum_list_with (λ ci, weight lists rank ci.1)
            (reverse (label id (children lists n)) ++ todo)
          = sum_list_with (weight lists rank) (children lists n)
            + sum_list_with (λ ci, weight lists rank ci.1) todo) as Hsum.
  { rewrite sum_list_with_app, sum_list_with_reverse.
    by rewrite sum_list_with_fst, label_fst. }
  destruct (reverse (label id (children lists n)) ++ todo)
    as [|[n' id'] todo']; [eauto|].
  apply Forall_cons in Hall as [Hn' Htodo']. apply IH; [done|done|].
  cbn in Hsum. lia.
Qed.

Lemma rangeIncoming_terminates fuel order result :
  Forall (λ ne, ne.2 = None → V ne.1 ∧ weight lists rank ne.1 ≤ fuel) order →
  ∃ res, rangeIncoming fuel lists order result = Done res.
Proof.
  revert result. induction order as [|[node [s|]] order IH];
    intros result Horder; cbn [rangeIncoming]; [eauto|..].
  - apply Forall_cons in Horder as [_ Horder]. by apply IH.
  - apply Forall_cons in Horder as [Hroot Horder].
    destruct Hroot as [Hnode Hfuel]; [done|].
    rewrite traverse_root. cbn in Hnode, Hfuel.
    destruct (walk_terminates fuel node node [] result) as [r ->];
      [done|constructor|cbn; lia|]. by apply IH.
Qed.
End terminates.

(** *** Coverage *)
Lemma walk_closed fuel n id todo result res :
  closedUpTo lists (dom result) (n :: todo.*1) →
  walk fuel lists n id todo result = Done res →
  closedUpTo lists (dom res) [] ∧ dom result ⊆ dom res ∧ n ∈ dom res.
Proof.
  revert n id todo result.
  induction fuel as [|fuel IH]; intros n id todo result Hclosed; [done|].
  cbn [walk].
  assert (closedUpTo lists (dom (<[n := id]> result))
            ((reverse (label id (children lists n)) ++ todo).*1)) as Hnext.
  { intros x c Hx Hc. rewrite dom_insert_L in *.
    rewrite fmap_app, fmap_reverse, label_fst, elem_of_app, elem_of_reverse.
    apply elem_of_union in Hx as [->%elem_of_singleton|Hx]; [by right; left|].
    destruct (Hclosed x c Hx Hc) as [H|H]; [left; set_solver|].
    apply elem_of_cons in H as [->|H]; [left; set_solver|by right; right]. }
  revert Hnext.
  destruct (reverse (label id (children lists n)) ++ todo)
    as [|[n' id'] todo']; intros Hnext.
  - intros [= <-]. rewrite dom_insert_L in *. split_and!; [done|set_solver..].
  - intros Hwalk. destruct (IH _ _ _ _ Hnext Hwalk) as (Hc & Hsub & _).
    rewrite dom_insert_L in Hsub. split_and!; [done|set_solver..].
Qed.

Lemma rangeIncoming_closed fuel order result res :
  closedUpTo lists (dom result) [] →
  rangeIncoming fuel lists order result = Done res →
  closedUpTo lists (dom res) [] ∧ dom result ⊆ dom res
  ∧ ∀ node, (node, None) ∈ order → node ∈ dom res.
Proof.
  revert result. induction order as [|[node [s|]] order IH];
    intros result Hclosed; cbn [rangeIncoming].
  - intros [= <-]. split_and!; [done..|]. by intros ? ?%elem_of_nil.
  - intros Hrun. destruct (IH _ Hclosed Hrun) as (? & ? & Hroots).
    split_and!; [done..|]. intros k [[=]|?]%elem_of_cons. by apply Hroots.
  - rewrite traverse_root.
    destruct (walk fuel lists node node [] result) as [r| |] eqn:E;
      [|done|done].
    intros Hrun.
    assert (closedUpTo lists (dom result)
              (node :: ([] : list (string * string)).*1)) as Hstart.
    { intros x c Hx Hc.
      destruct (Hclosed x c Hx Hc) as [?|?%elem_of_nil]; [by left|done]. }
    destruct (walk_closed _ _ _ _ _ _ Hstart E) as (Hc & Hsub & Hnode).
    destruct (IH _ Hc Hrun) as (? & Hsub' & Hroots).
    split_and!; [done|set_solver|].
    intros k [[= ->]|?]%elem_of_cons; [set_solver|by apply Hroots].
Qed.
End walk.

(** ** The resolver on the graph of a log *)

Section resolver.
Variable rs : list record.
Let lists := adjacencyLists (mkServer rs) None.

Lemma children_elem p c :
  c ∈ children lists p
  ↔ ∃ r, r ∈ rs ∧ subject r = c ∧ previous r = p ∧ p ≠ "".
Proof.
  unfold children, values. subst lists. rewrite index_outgoing.
  rewrite <- successors_elem.
  destruct (setOf (successors p rs)) as [s|] eqn:E.
  - by apply setOf_elem.
  - apply setOf_None in E. by rewrite E.
Qed.

Lemma children_NoDup p : NoDup (children lists p).
Proof.
  unfold children, values. subst lists. rewrite index_outgoing.
  destruct (setOf (successors p rs)) as [s|] eqn:E; [|constructor].
  by apply setOf_wf in E as [? _].
Qed.

Lemma incoming_root k :
  incoming lists !! k = Some None
  ↔ (k ∈ subject <$> rs ∨ k ∈ referenced rs) ∧ predecessors k rs = [].
Proof.
  subst lists. rewrite lookup_index, dom_incoming, index_incoming.
  rewrite <- setOf_None.
  case_decide as Hk; rewrite elem_of_union, !elem_of_list_to_set in Hk.
  - split; [intros [= ->]; by split | by intros [_ ->]].
  - split; [done | by intros [? _]].
Qed.

Lemma rangeOrder_elem order node edges :
  rangeOrder (incoming lists) order →
  (node, edges) ∈ order ↔ incoming lists !! node = Some edges.
Proof. intros ->. apply elem_of_map_to_list. Qed.

Section ranked.
Variable rank : string → nat.
Hypothesis Hranked : lineageRanked rank rs.

Lemma ranked_children n c : c ∈ children lists n → rank c < rank n.
Proof.
  intros (r & Hr & <- & <- & Hne)%children_elem.
  unfold lineageRanked in Hranked. rewrite Forall_forall in Hranked.
  by apply Hranked.
Qed.

Lemma mapCanonicalIDs_returns fuel order :
  fuelFor lists rank ≤ fuel → rangeOrder (incoming lists) order →
  ∃ res, mapCanonicalIDs fuel order lists = Done res.
Proof.
  intros Hfuel Horder.
  apply (rangeIncoming_terminates lists rank (λ _, True)
           (λ n c _ Hc, conj I (ranked_children n c Hc))).
  apply Forall_forall. intros [node edges] Hin _. split; [done|]. cbn.
  etrans; [|apply Hfuel]. unfold fuelFor.
  apply (sum_list_with_in (node, edges) (λ ne, weight lists rank ne.1)).
  by rewrite <- Horder.
Qed.

(** Every node of a DAG is reached from the roots. *)
Lemma closed_covers (visited : gset string) :
  closedUpTo lists visited [] →
  (∀ node, incoming lists !! node = Some None → node ∈ visited) →
  ∀ k, k ∈ dom (incoming lists) → k ∈ visited.
Proof.
  intros Hclosed Hroots.
  set (bound := S (max_list (rank <$> elements (dom (incoming lists))))).
  assert (∀ k, k ∈ dom (incoming lists) → rank k < bound) as Hbound.
  { intros k Hk. apply Nat.lt_succ_r, max_list_elem_of_le.
    apply list_elem_of_fmap_2. by apply elem_of_elements. }
  assert (∀ m k, k ∈ dom (incoming lists) → bound ≤ rank k + m →
                 k ∈ visited) as Hind.
  2: { intros k Hk. apply (Hind bound k Hk). lia. }
  induction m as [|m IH]; intros k Hk Hm.
  { specialize (Hbound k Hk). lia. }
  destruct (predecessors k rs) as [|p ps] eqn:E.
  - apply Hroots, incoming_root. split; [|done].
    subst lists. rewrite dom_incoming in Hk.
    by rewrite elem_of_union, !elem_of_list_to_set in Hk.
  - assert (p ∈ predecessors k rs) as Hp by (rewrite E; left).
    apply predecessors_elem in Hp as (r & Hr & Hs & Hp & Hne).
    assert (k ∈ children lists p) as Hc by (apply children_elem; eauto).
    pose proof (ranked_children p k Hc) as Hlt.
    assert (p ∈ visited) as Hvis.
    { apply IH; [|lia]. subst lists. rewrite dom_incoming.
      apply elem_of_union_r, elem_of_list_to_set, referenced_elem. eauto. }
    destruct (Hclosed p k Hvis Hc) as [?|?%elem_of_nil]; done.
Qed.

Lemma mapCanonicalIDs_covers fuel order res :
  rangeOrder (incoming lists) order →
  mapCanonicalIDs fuel order lists = Done res →
  dom (incoming lists) ⊆ dom res.
Proof.
  intros Horder Hrun k Hk.
  destruct (rangeIncoming_closed lists fuel order ∅ res) as (Hc & _ & Hr);
    [by intros x c ?%not_elem_of_empty|done|].
  apply (closed_covers (dom res)); [done| |done].
  intros node Hnode. apply Hr. by apply rangeOrder_elem.
Qed.
End ranked.

Lemma subject_incoming r : r ∈ rs → subject r ∈ dom (incoming lists).
Proof.
  intros Hr. subst lists. rewrite dom_incoming.
  apply elem_of_union_l, elem_of_list_to_set. by apply list_elem_of_fmap_2.
Qed.
End resolver.

Lemma rangeIncoming_no_roots fuel lists order result :
  Forall (λ ne : string * option stringSet, is_Some ne.2) order →
  rangeIncoming fuel lists order result = Done result.
Proof.
  induction 1 as [|[node [s|]] order Hne _ IH]; cbn; [done..|].
  by destruct Hne.
Qed.

(** C3, as stated, fails: on [cycleLog] no node is a root, so for every
    order and fuel the map comes back empty although [A] is a subject. *)
Lemma mapCanonicalIDs_misses_cycle :
  "A" ∈ subject <$> cycleLog
  ∧ ∀ fuel order,
      rangeOrder (incoming (adjacencyLists (mkServer cycleLog) None)) order →
      mapCanonicalIDs fuel order (adjacencyLists (mkServer cycleLog) None)
      = Done ∅
      ∧ (∅ : gmap string string) !! "A" = None.
Proof.
  split; [unfold cycleLog; set_solver|]. intros fuel order Horder.
  split; [|done]. apply rangeIncoming_no_roots.
  unfold rangeOrder in Horder. rewrite Horder.
  apply (bool_decide_unpack _). vm_compute. exact I.
Qed.

(** C3, amended.  When the lineage of the log is a DAG, the resolver returns
    (given the fuel of its loops, whatever the order of the roots) and every
    fingerprint that is the subject of a record is a key of the result. *)
Theorem mapCanonicalIDs_total (rs : list record) (rank : string → nat)
    (fuel : nat) (order : list (string * option stringSet)) :
  lineageRanked rank rs →
  fuelFor (adjacencyLists (mkServer rs) None) rank ≤ fuel →
  rangeOrder (incoming (adjacencyLists (mkServer rs) None)) order →
  ∃ res, mapCanonicalIDs fuel order (adjacencyLists (mkServer rs) None)
         = Done res
         ∧ ∀ r, r ∈ rs → is_Some (res !! subject r).
Proof.
  intros Hranked Hfuel Horder.
  destruct (mapCanonicalIDs_returns rs rank Hranked fuel order Hfuel Horder)
    as [res Hres].
  exists res. split; [done|]. intros r Hr. apply elem_of_dom.
  eapply mapCanonicalIDs_covers; [done..|]. by apply subject_incoming.
Qed.

(** ** Fuel and order *)

Lemma walk_fuel_mono lists fuel fuel' n id todo result res :
  fuel ≤ fuel' →
  walk fuel lists n id todo result = Done res →
  walk fuel' lists n id todo result = Done res.
Proof.
  revert fuel' n id todo result.
  induction fuel as [|fuel IH]; intros fuel' n id todo result Hle; [done|].
  destruct fuel' as [|fuel']; [lia|]. cbn [walk].
  destruct (reverse (label id (children lists n)) ++ todo)
    as [|[n' id'] todo']; [done|].
  apply IH. lia.
Qed.

Lemma rangeIncoming_fuel_mono lists fuel fuel' order result res :
  fuel ≤ fuel' →
  rangeIncoming fuel lists order result = Done res →
  rangeIncoming fuel' lists order result = Done res.
Proof.
  intros Hle. revert result.
  induction order as [|[node [s|]] order IH]; intros result;
    cbn [rangeIncoming]; [done|apply IH|].
  rewrite !traverse_root.
  destruct (walk fuel lists node node [] result) as [r| |] eqn:E; [|done..].
  rewrite (walk_fuel_mono _ _ _ _ _ _ _ _ Hle E). apply IH.
Qed.

(** Only the roots among the entries matter to the outer loop. *)
Lemma rangeIncoming_roots fuel lists order result :
  rangeIncoming fuel lists order result
  = rangeIncoming fuel lists (filter (λ ne, ne.2 = None) order) result.
Proof.
  revert result. induction order as [|[node [s|]] order IH]; intros result.
  - done.
  - rewrite filter_cons_False by done. apply IH.
  - rewrite filter_cons_True by done. cbn [rangeIncoming].
    destruct (traverse fuel lists node [] (push [] node) result); [apply IH|done..].
Qed.

(** A graph with the single root [node]: every order gives the run from
    that root. *)
Lemma mapCanonicalIDs_single_root lists node fuel0 fuel order res :
  filter (λ ne, ne.2 = None) (map_to_list (incoming lists)) = [(node, None)] →
  walk fuel0 lists node node [] ∅ = Done res →
  fuel0 ≤ fuel → rangeOrder (incoming lists) order →
  mapCanonicalIDs fuel order lists = Done res.
Proof.
  intros Hroots Hwalk Hle Horder. unfold mapCanonicalIDs.
  rewrite rangeIncoming_roots.
  assert (filter (λ ne, ne.2 = None) order = [(node, None)]) as ->.
  { apply Permutation_singleton_r. rewrite <- Hroots. by rewrite Horder. }
  cbn [rangeIncoming]. rewrite traverse_root.
  by rewrite (walk_fuel_mono _ _ _ _ _ _ _ _ Hle Hwalk).
Qed.

(** ** Canonical identifiers *)

Lemma canonical_children lists n id :
  canonical lists n id →
  Forall (λ ci, canonical lists ci.1 ci.2) (label id (children lists n)).
Proof.
  intros Hn. destruct (children lists n) as [|c rest] eqn:E; [constructor|].
  cbn. constructor.
  - by eapply canonical_first.
  - apply Forall_fmap, Forall_forall. intros c' Hc'. cbn.
    by eapply canonical_later.
Qed.

Lemma mapCanonicalIDs_canonical lists fuel order res :
  rangeOrder (incoming lists) order →
  mapCanonicalIDs fuel order lists = Done res →
  map_Forall (canonical lists) res.
Proof.
  intros Horder. apply rangeIncoming_writes.
  - apply canonical_children.
  - apply Forall_forall. intros [node edges] Hin. cbn. intros ->.
    apply canonical_root. unfold rangeOrder in Horder. rewrite Horder in Hin.
    by apply elem_of_map_to_list.
  - apply map_Forall_empty.
Qed.

Section forest.
Variable rs : list record.
Let lists := adjacencyLists (mkServer rs) None.

Lemma root_not_child n p :
  incoming lists !! n = Some None → n ∉ children lists p.
Proof.
  intros [_ Hnil]%incoming_root (r & Hr & Hs & Hp & Hne)%children_elem.
  assert (p ∈ predecessors n rs) as Hin by (apply predecessors_elem; eauto).
  rewrite Hnil in Hin. by apply elem_of_nil in Hin.
Qed.

(** A fingerprint that is never a subject can only be its own identifier. *)
Lemma canonical_unseen n id :
  n ∉ (subject <$> rs) → canonical lists n id → id = n.
Proof.
  intros Hn Hc.
  assert (∀ p, n ∉ children lists p) as Hno.
  { intros p (r & Hr & <- & _)%children_elem. apply Hn.
    by apply list_elem_of_fmap_2. }
  inversion Hc as [|p c rest i Hp|p c0 rest c Hp Hin]; subst; [done| |done].
  exfalso. apply (Hno p). rewrite Hp. left.
Qed.

Hypothesis Hforest : lineageForest rs.

Lemma forest_parent c p p' :
  c ∈ children lists p → c ∈ children lists p' → p = p'.
Proof.
  intros (r & Hr & Hs & Hp & Hne)%children_elem
         (r' & Hr' & Hs' & Hp' & Hne')%children_elem.
  unfold lineageForest in Hforest. rewrite Forall_forall in Hforest.
  specialize (Hforest r Hr). rewrite Forall_forall in Hforest.
  specialize (Hforest r' Hr'). subst p p'. apply Hforest; congruence.
Qed.

Lemma canonical_functional n i j :
  canonical lists n i → canonical lists n j → i = j.
Proof.
  intros Hi. revert j.
  induction Hi as [n Hroot|p c rest i Hp Hi IH|p c0 rest c Hp Hin];
    intros j Hj.
  - inversion Hj as [|p c rest i Hp|p c0 rest c Hp Hin]; subst; [done| |done].
    exfalso. apply (root_not_child n p Hroot). rewrite Hp. left.
  - assert (c ∈ children lists p) as Hc by (rewrite Hp; left).
    inversion Hj as [? Hroot|p' c' rest' i' Hp' Hj'|p' c0 rest' c' Hp' Hin];
      subst.
    + exfalso. by apply (root_not_child j p Hroot).
    + assert (p = p') as <-; [|by apply IH].
      apply (forest_parent c); [done|]. rewrite Hp'. left.
    + assert (p = p') as <-.
      { apply (forest_parent j); [done|]. rewrite Hp'. by right. }
      pose proof (children_NoDup rs p) as Hnd. fold lists in Hnd.
      rewrite Hp in Hnd. rewrite Hp in Hp'. injection Hp' as <- <-.
      by apply NoDup_cons in Hnd as [? _].
  - assert (c ∈ children lists p) as Hc by (rewrite Hp; by right).
    inversion Hj as [? Hroot|p' c' rest' i' Hp' Hj'|p' c0' rest' c' Hp' Hin'];
      subst; [|  |done].
    + exfalso. by apply (root_not_child j p Hroot).
    + assert (p = p') as <-.
      { apply (forest_parent c); [done|]. rewrite Hp'. left. }
      pose proof (children_NoDup rs p) as Hnd. fold lists in Hnd.
      rewrite Hp in Hnd. rewrite Hp in Hp'. injection Hp' as <- <-.
      by apply NoDup_cons in Hnd as [? _].
Qed.
End forest.

(** The first successor recorded for [p] heads the children of [p]. *)
Lemma children_head rs p c :
  head (successors p rs) = Some c →
  ∃ rest, children (adjacencyLists (mkServer rs) None) p = c :: rest.
Proof.
  intros [l Hl]%head_Some. unfold children, values.
  rewrite index_outgoing, Hl. cbn [setOf]. apply (setOf_head c l).
Qed.

Lemma rangeOrder_map_to_list {V} (m : gmap string V) :
  rangeOrder m (map_to_list m).
Proof. by unfold rangeOrder. Qed.

Lemma testLog_ranked : lineageRanked testRank testLog.
Proof. apply (bool_decide_unpack _). vm_compute. exact I. Qed.

Lemma testLog_forest : lineageForest testLog.
Proof. apply (bool_decide_unpack _). vm_compute. exact I. Qed.

Lemma testLog_fuel : fuelFor testLists testRank ≤ 50.
Proof. apply (bool_decide_unpack _). vm_compute. exact I. Qed.

Lemma mapCanonicalIDs_total_witness :
  ∃ res, mapCanonicalIDs 50 (map_to_list (incoming testLists)) testLists
         = Done res
         ∧ ∀ r, r ∈ testLog → is_Some (res !! subject r).
Proof.
  apply (mapCanonicalIDs_total testLog testRank 50
           (map_to_list (incoming testLists))).
  - apply testLog_ranked.
  - apply testLog_fuel.
  - apply rangeOrder_map_to_list.
Defined.

(** C4, as stated, fails: on [mergeLog] the edge [X→Y] is recorded before
    [X→Z], yet [Z] ends with the identifier of [X], not its own. *)
Lemma branch_rule_fails_on_merge :
  head (successors "X" mergeLog) = Some "Y"
  ∧ "Z" ∈ successors "X" mergeLog
  ∧ ∀ fuel order,
      5 ≤ fuel →
      rangeOrder (incoming (adjacencyLists (mkServer mergeLog) None)) order →
      ∃ res, mapCanonicalIDs fuel order (adjacencyLists (mkServer mergeLog) None)
             = Done res
             ∧ res !! "X" = Some "X" ∧ res !! "Y" = Some "X"
             ∧ res !! "Z" = Some "X" ∧ res !! "Z" ≠ Some "Z".
Proof.
  split; [reflexivity|]. split; [apply (bool_decide_unpack _); vm_compute; exact I|].
  intros fuel order Hfuel Horder. eexists. split.
  - eapply (mapCanonicalIDs_single_root _ "X" 5); [|vm_compute; reflexivity|done..].
    vm_compute. reflexivity.
  - vm_compute. repeat split; congruence.
Qed.

(** C4, amended.  On a log whose lineage is a forest (a DAG in which every
    fingerprint has at most one predecessor), if the first record naming [X]
    as predecessor has subject [Y] and another names [X] with a different
    subject [Z], the resolver returns, [Y] gets the identifier of [X] and
    [Z] its own fingerprint. *)
Theorem branch_rule (rs : list record) (rank : string → nat) (fuel : nat)
    (order : list (string * option stringSet)) (X Y Z : string) :
  lineageRanked rank rs → lineageForest rs →
  fuelFor (adjacencyLists (mkServer rs) None) rank ≤ fuel →
  rangeOrder (incoming (adjacencyLists (mkServer rs) None)) order →
  head (successors X rs) = Some Y → Z ∈ successors X rs → Z ≠ Y →
  ∃ res id, mapCanonicalIDs fuel order (adjacencyLists (mkServer rs) None)
            = Done res
            ∧ res !! X = Some id ∧ res !! Y = Some id ∧ res !! Z = Some Z.
Proof.
  intros Hranked Hforest Hfuel Horder HY HZ Hne.
  set (lists := adjacencyLists (mkServer rs) None) in *.
  destruct (mapCanonicalIDs_returns rs rank Hranked fuel order Hfuel Horder)
    as [res Hres].
  pose proof (mapCanonicalIDs_covers rs rank Hranked fuel order res Horder Hres)
    as Hcov.
  pose proof (mapCanonicalIDs_canonical lists fuel order res Horder Hres) as Hcan.
  destruct (children_head rs X Y HY) as [rest Hch]. fold lists in Hch.
  assert (Z ∈ rest) as Hrest.
  { assert (Z ∈ children lists X) as Hin.
    { apply children_elem. by apply successors_elem. }
    rewrite Hch in Hin. by apply elem_of_cons in Hin as [?|?]. }
  pose proof (head_Some_elem_of _ _ HY) as HYin.
  apply successors_elem in HYin as (rY & HrY & HsY & HpY & HX).
  apply successors_elem in HZ as (rZ & HrZ & HsZ & HpZ & _).
  assert (X ∈ dom (incoming lists)) as HXd.
  { unfold lists. rewrite dom_incoming.
    apply elem_of_union_r, elem_of_list_to_set, referenced_elem. eauto. }
  assert (Y ∈ dom (incoming lists)) as HYd
    by (rewrite <- HsY; by apply subject_incoming).
  assert (Z ∈ dom (incoming lists)) as HZd
    by (rewrite <- HsZ; by apply subject_incoming).
  apply Hcov, elem_of_dom in HXd as [i Hi].
  apply Hcov, elem_of_dom in HYd as [j Hj].
  apply Hcov, elem_of_dom in HZd as [k Hk].
  exists res, i. split_and!; [done|done| |].
  - rewrite Hj. f_equal. apply (canonical_functional rs Hforest Y).
    + by apply Hcan.
    + eapply canonical_first; [exact Hch|by apply Hcan].
  - rewrite Hk. f_equal. apply (canonical_functional rs Hforest Z).
    + by apply Hcan.
    + eapply canonical_later; [exact Hch|done].
Qed.

Lemma branch_rule_witness :
  ∃ res id, mapCanonicalIDs 50 (map_to_list (incoming testLists)) testLists
            = Done res
            ∧ res !! "D" = Some id ∧ res !! "K" = Some id
            ∧ res !! "E" = Some "E".
Proof.
  apply (branch_rule testLog testRank 50 (map_to_list (incoming testLists))
           "D" "K" "E").
  - apply testLog_ranked.
  - apply testLog_forest.
  - apply testLog_fuel.
  - apply rangeOrder_map_to_list.
  - reflexivity.
  - apply (bool_decide_unpack _). vm_compute. exact I.
  - done.
Defined.

(** C5, as stated, fails: on [unseenLog] the predecessor ["?"] is never a
    subject, yet it is a key of the result, mapped to itself. *)
Lemma unseen_root_is_key :
  "?" ∈ referenced unseenLog
  ∧ ¬ ("?" ∈ subject <$> unseenLog)
  ∧ ∀ fuel order,
      2 ≤ fuel →
      rangeOrder (incoming (adjacencyLists (mkServer unseenLog) None)) order →
      ∃ res, mapCanonicalIDs fuel order
               (adjacencyLists (mkServer unseenLog) None) = Done res
             ∧ res !! "?" = Some "?".
Proof.
  split; [apply (bool_decide_unpack _); vm_compute; exact I|].
  split; [apply (bool_decide_unpack _); vm_compute; exact I|].
  intros fuel order Hfuel Horder. eexists. split.
  - eapply (mapCanonicalIDs_single_root _ "?" 2); [|vm_compute; reflexivity|done..].
    vm_compute. reflexivity.
  - vm_compute. reflexivity.
Qed.

(** C5, amended.  On a log whose lineage is a DAG, a fingerprint named as
    predecessor but never a subject is a root: [incoming] holds the nil
    pointer for it, the resolver returns, and the result maps it to itself;
    when moreover the lineage is a forest, its first successor inherits it
    as identifier. *)
Theorem unseen_root (rs : list record) (rank : string → nat) (fuel : nat)
    (order : list (string * option stringSet)) (X : string) :
  lineageRanked rank rs →
  fuelFor (adjacencyLists (mkServer rs) None) rank ≤ fuel →
  rangeOrder (incoming (adjacencyLists (mkServer rs) None)) order →
  X ∈ referenced rs → X ∉ (subject <$> rs) →
  incoming (adjacencyLists (mkServer rs) None) !! X = Some None
  ∧ ∃ res, mapCanonicalIDs fuel order (adjacencyLists (mkServer rs) None)
           = Done res
           ∧ res !! X = Some X
           ∧ (lineageForest rs →
              ∀ Y, head (successors X rs) = Some Y → res !! Y = Some X).
Proof.
  intros Hranked Hfuel Horder Href Hsub.
  set (lists := adjacencyLists (mkServer rs) None) in *.
  assert (incoming lists !! X = Some None) as Hroot.
  { apply incoming_root. split; [by right|].
    destruct (predecessors X rs) as [|p ps] eqn:E; [done|]. exfalso.
    assert (p ∈ predecessors X rs) as Hp by (rewrite E; left).
    apply predecessors_elem in Hp as (r & Hr & <- & _). apply Hsub.
    by apply list_elem_of_fmap_2. }
  split; [done|].
  destruct (mapCanonicalIDs_returns rs rank Hranked fuel order Hfuel Horder)
    as [res Hres].
  pose proof (mapCanonicalIDs_covers rs rank Hranked fuel order res Horder Hres)
    as Hcov.
  pose proof (mapCanonicalIDs_canonical lists fuel order res Horder Hres) as Hcan.
  exists res. split_and!; [done| |].
  - assert (X ∈ dom (incoming lists)) as [i Hi]%Hcov%elem_of_dom
      by (apply elem_of_dom; eauto).
    rewrite Hi. f_equal. apply (canonical_unseen rs X); [done|by apply Hcan].
  - intros Hforest Y HY.
    destruct (children_head rs X Y HY) as [rest Hch]. fold lists in Hch.
    apply head_Some_elem_of, successors_elem in HY as (r & Hr & <- & _).
    pose proof (subject_incoming rs r Hr) as [j Hj]%Hcov%elem_of_dom.
    rewrite Hj. f_equal. apply (canonical_functional rs Hforest (subject r)).
    + by apply Hcan.
    + eapply canonical_first; [exact Hch|by apply canonical_root].
Qed.

Lemma unseen_root_witness :
  incoming testLists !! "?" = Some None
  ∧ ∃ res, mapCanonicalIDs 50 (map_to_list (incoming testLists)) testLists
           = Done res
           ∧ res !! "?" = Some "?"
           ∧ (lineageForest testLog →
              ∀ Y, head (successors "?" testLog) = Some Y →
                   res !! Y = Some "?").
Proof.
  apply (unseen_root testLog testRank 50 (map_to_list (incoming testLists)) "?").
  - apply testLog_ranked.
  - apply testLog_fuel.
  - apply rangeOrder_map_to_list.
  - apply (bool_decide_unpack _). vm_compute. exact I.
  - apply (bool_decide_unpack _). vm_compute. exact I.
Defined.

(** ** The aggregator *)

Lemma opsTotal_increment ops op :
  opsTotal (<[op := S (default 0 (ops !! op))]> ops) = S (opsTotal ops).
Proof.
  unfold opsTotal.
  assert (∀ z1 z2 y : nat, z1 + (z2 + y) = z2 + (z1 + y))
    as Hcomm by (intros; lia).
  destruct (ops !! op) as [v|] eqn:E; cbn [default].
  - rewrite <- insert_delete_eq.
    rewrite map_fold_insert_L; [|by intros; apply Hcomm|apply lookup_delete_eq].
    rewrite (map_fold_delete_L _ _ op v ops); [cbn; lia|..|done].
    intros. apply Hcomm.
  - rewrite map_fold_insert_L; [cbn; lia|..|done].
    intros. apply Hcomm.
Qed.

Lemma tally_lookup canonicalIDs result r clientID :
  tally canonicalIDs result r !! clientID
  = if decide (resolve canonicalIDs (subject r) = clientID)
    then Some (<[operation r :=
                  S (default 0 (default ∅ (result !! clientID) !! operation r))]>
                 (default ∅ (result !! clientID)))
    else result !! clientID.
Proof.
  unfold tally, resolve. case_decide as Hid.
  - subst clientID. by rewrite lookup_insert_eq.
  - by rewrite lookup_insert_ne.
Qed.

Section aggregate.
Variable canonicalIDs : gmap string string.

(** The counts of a client add up to the number of its records. *)
Lemma tally_total rs clientID :
  opsTotal (default ∅ (foldl (tally canonicalIDs) ∅ rs !! clientID))
  = length (filter (λ r, resolve canonicalIDs (subject r) = clientID) rs).
Proof.
  induction rs as [|r rs IH] using rev_ind.
  - cbn. rewrite lookup_empty. cbn. unfold opsTotal. by rewrite map_fold_empty.
  - rewrite foldl_snoc, filter_app, length_app, tally_lookup.
    rewrite filter_cons, filter_nil.
    set (ops := default ∅ (foldl (tally canonicalIDs) ∅ rs !! clientID)) in *.
    case_decide; cbn [length].
    + change (default ∅ (Some ?m)) with m.
      rewrite opsTotal_increment, IH. lia.
    + fold ops. rewrite IH. lia.
Qed.

(** Each count is the number of records of that client and operation. *)
Lemma tally_count rs clientID op :
  opCount (foldl (tally canonicalIDs) ∅ rs) clientID op
  = length (filter (λ r, resolve canonicalIDs (subject r) = clientID
                         ∧ operation r = op) rs).
Proof.
  unfold opCount. induction rs as [|r rs IH] using rev_ind.
  - cbn. by rewrite !lookup_empty.
  - rewrite foldl_snoc, filter_app, length_app, tally_lookup.
    rewrite filter_cons, filter_nil.
    destruct (decide (resolve canonicalIDs (subject r) = clientID)) as [Hid|Hid].
    + change (default ∅ (Some ?m)) with m.
      destruct (decide (operation r = op)) as [Hop|Hop].
      * subst op. rewrite lookup_insert_eq, decide_True by done.
        cbn [length]. change (default 0 (Some ?m)) with m. rewrite IH. lia.
      * rewrite lookup_insert_ne, decide_False by naive_solver.
        cbn [length]. rewrite IH. lia.
    + rewrite decide_False by naive_solver. cbn [length]. rewrite IH. lia.
Qed.

(** Only clients with a record are present. *)
Lemma tally_present rs clientID ops :
  foldl (tally canonicalIDs) ∅ rs !! clientID = Some ops →
  ∃ r, r ∈ rs ∧ resolve canonicalIDs (subject r) = clientID.
Proof.
  induction rs as [|r rs IH] using rev_ind.
  - cbn. by rewrite lookup_empty.
  - rewrite foldl_snoc, tally_lookup. case_decide as Hid.
    + intros _. exists r. split; [|done]. apply elem_of_app. right. left.
    + intros (r' & Hr' & Hid')%IH. exists r'. split; [|done].
      apply elem_of_app. by left.
Qed.

(** Every record makes its client present. *)
Lemma tally_records rs r :
  r ∈ rs →
  is_Some (foldl (tally canonicalIDs) ∅ rs
             !! resolve canonicalIDs (subject r)).
Proof.
  induction rs as [|r' rs IH] using rev_ind; [by intros ?%elem_of_nil|].
  rewrite foldl_snoc, tally_lookup.
  intros [Hr| ->%list_elem_of_singleton]%elem_of_app.
  - case_decide; [eauto|by apply IH].
  - rewrite decide_True by done. eauto.
Qed.
End aggregate.

(** ** Predecessor cycles *)

Lemma length_filter_impl {A} (P Q : A → Prop)
    `{!∀ x, Decision (P x)} `{!∀ x, Decision (Q x)} (l : list A) :
  (∀ x, P x → Q x) → length (filter P l) ≤ length (filter Q l).
Proof.
  intros HPQ. induction l as [|x l IH]; [done|].
  rewrite !filter_cons. destruct (decide (P x)) as [HP|HP].
  - rewrite decide_True by auto. cbn. lia.
  - case_decide; cbn; lia.
Qed.

(** A loop entered on a set of nodes that all have successors inside the
    set never empties its stack. *)
Lemma walk_diverges lists (S : string → Prop) fuel n id todo result :
  (∀ n, S n → children lists n ≠ [] ∧ Forall S (children lists n)) →
  S n → Forall (λ ci, S ci.1) todo →
  walk fuel lists n id todo result = OutOfFuel.
Proof.
  intros Hstep. revert n id todo result.
  induction fuel as [|fuel IH]; intros n id todo result Hn Htodo; [done|].
  cbn [walk]. destruct (Hstep n Hn) as [Hne Hin].
  assert (Forall (λ ci, S ci.1)
            (reverse (label id (children lists n)) ++ todo)) as Hall.
  { apply Forall_app. split; [|done]. apply Forall_reverse.
    apply Forall_forall. intros [c i] Hc. cbn.
    rewrite Forall_forall in Hin. apply Hin. rewrite <- (label_fst id).
    by apply (list_elem_of_fmap_2 fst) in Hc. }
  destruct (reverse (label id (children lists n)) ++ todo)
    as [|[n' id'] todo'] eqn:E.
  - apply app_eq_nil in E as [E _].
    apply (f_equal reverse) in E. rewrite reverse_involutive in E.
    by apply label_nil in E.
  - apply Forall_cons in Hall as [Hn' Htodo']. by apply IH.
Qed.

Section cycle.
Variables (rs : list record) (members : gset string).
Let lists := adjacencyLists (mkServer rs) None.
Hypothesis Hcycle : predecessorCycle members rs.

Lemma member_not_root x :
  x ∈ members → incoming lists !! x ≠ Some None.
Proof.
  intros Hx [_ Hnil]%incoming_root. destruct Hcycle as [Hsub Hpre].
  rewrite Forall_forall in Hsub. rewrite Forall_forall in Hpre.
  specialize (Hsub x). rewrite elem_of_elements in Hsub.
  pose proof (Hsub Hx) as (r & Hxr & Hr)%list_elem_of_fmap. subst x.
  destruct (Hpre r Hr Hx) as [Hne _].
  assert (previous r ∈ predecessors (subject r) rs) as Hin
    by (apply predecessors_elem; eauto).
  rewrite Hnil in Hin. by apply elem_of_nil in Hin.
Qed.

Lemma outside_children n c :
  n ∉ members → c ∈ children lists n → c ∉ members.
Proof.
  intros Hn (r & Hr & <- & <- & Hne)%children_elem Hc.
  destruct Hcycle as [_ Hpre]. rewrite Forall_forall in Hpre.
  by destruct (Hpre r Hr Hc).
Qed.

(** No member is written by the resolver. *)
Lemma mapCanonicalIDs_skips_members fuel order res :
  rangeOrder (incoming lists) order →
  mapCanonicalIDs fuel order lists = Done res →
  ∀ x, x ∈ members → res !! x = None.
Proof.
  intros Horder Hrun x Hx.
  assert (map_Forall (λ n _, n ∉ members) res) as Hall.
  { eapply (rangeIncoming_writes lists (λ n _, n ∉ members));
      [| |apply map_Forall_empty|exact Hrun].
    - intros n id Hn. apply Forall_forall. intros [c i] Hc. cbn.
      apply (outside_children n); [done|]. rewrite <- (label_fst id).
      by apply (list_elem_of_fmap_2 fst) in Hc.
    - apply Forall_forall. intros [node edges] Hin. cbn. intros -> Hnode.
      apply (member_not_root node Hnode). by apply (rangeOrder_elem rs order). }
  destruct (res !! x) as [i|] eqn:E; [|done].
  by destruct (Hall x i E).
Qed.

Lemma mapCanonicalIDs_returns_outside rank fuel order :
  rankedOutside members rank rs →
  fuelFor lists rank ≤ fuel → rangeOrder (incoming lists) order →
  ∃ res, mapCanonicalIDs fuel order lists = Done res.
Proof.
  intros Hranked Hfuel Horder.
  apply (rangeIncoming_terminates lists rank (λ n, n ∉ members)).
  - intros n c Hn Hc. split; [by eapply outside_children|].
    pose proof (outside_children n c Hn Hc) as Hout.
    apply children_elem in Hc as (r & Hr & <- & <- & Hne).
    unfold rankedOutside in Hranked. rewrite Forall_forall in Hranked.
    by apply Hranked.
  - apply Forall_forall. intros [node edges] Hin. cbn. intros ->. split.
    + intros Hnode. apply (member_not_root node Hnode).
      by apply (rangeOrder_elem rs order).
    + etrans; [|apply Hfuel]. unfold fuelFor.
      apply (sum_list_with_in (node, None) (λ ne, weight lists rank ne.1)).
      by rewrite <- Horder.
Qed.
End cycle.

(** C10, as stated, fails: [loopLog] contains the predecessor cycle
    [{A, B}], but its other cycle is reached from a root, the work loop
    never ends and [OperationsByClient] yields no result for any fuel. *)
Lemma OperationsByClient_diverges :
  predecessorCycle {["A"; "B"]} loopLog
  ∧ ∀ fuel order,
      rangeOrder (incoming (adjacencyLists (mkServer loopLog) None)) order →
      OperationsByClient fuel order (mkServer loopLog) = OutOfFuel.
Proof.
  split; [apply (bool_decide_unpack _); vm_compute; exact I|].
  intros fuel order Horder. unfold OperationsByClient, mapCanonicalIDs.
  rewrite rangeIncoming_roots.
  assert (filter (λ ne, ne.2 = None) order = [("R", None)]) as ->.
  { apply Permutation_singleton_r. unfold rangeOrder in Horder.
    rewrite Horder. vm_compute. reflexivity. }
  cbn [rangeIncoming]. rewrite traverse_root.
  assert (walk fuel (adjacencyLists (mkServer loopLog) None) "R" "R" [] ∅
          = OutOfFuel) as ->; [|reflexivity].
  apply (walk_diverges _ (λ n, n ∈ ["R"; "X"; "Y"])); [|left|constructor].
  intros n Hn. repeat (apply elem_of_cons in Hn as [->|Hn]).
  - split; [by vm_compute|]. vm_compute. repeat constructor.
  - split; [by vm_compute|]. vm_compute. repeat constructor.
  - split; [by vm_compute|]. vm_compute. repeat constructor.
  - by apply elem_of_nil in Hn.
Qed.

(** C10, amended.  When the log contains a predecessor cycle and its
    lineage outside the cycle is a DAG, the resolver returns a mapping
    without identifier for any member of the cycle, and
    [OperationsByClient] returns a result whose entry for the empty string
    counts, operation by operation, every record of the members. *)
Theorem cycle_members_unresolved (rs : list record) (members : gset string)
    (rank : string → nat) (fuel : nat)
    (order : list (string * option stringSet)) :
  predecessorCycle members rs → rankedOutside members rank rs →
  fuelFor (adjacencyLists (mkServer rs) None) rank ≤ fuel →
  rangeOrder (incoming (adjacencyLists (mkServer rs) None)) order →
  ∃ canonicalIDs res,
    mapCanonicalIDs fuel order (adjacencyLists (mkServer rs) None)
    = Done canonicalIDs
    ∧ (∀ x, x ∈ members → canonicalIDs !! x = None)
    ∧ OperationsByClient fuel order (mkServer rs) = Done res
    ∧ ∀ op, length (filter (λ r, subject r ∈ members ∧ operation r = op) rs)
            ≤ opCount res "" op.
Proof.
  intros Hcycle Hranked Hfuel Horder.
  destruct (mapCanonicalIDs_returns_outside rs members Hcycle rank fuel order
              Hranked Hfuel Horder) as [ids Hids].
  pose proof (mapCanonicalIDs_skips_members rs members Hcycle fuel order ids
                Horder Hids) as Hskip.
  exists ids, (foldl (tally ids) ∅ rs). split_and!; [done|done| |].
  - unfold OperationsByClient. by rewrite Hids.
  - intros op. rewrite tally_count. apply length_filter_impl.
    intros r [Hr Hop]. split; [|done]. unfold resolve. by rewrite Hskip.
Qed.

Lemma cycle_members_unresolved_witness :
  ∃ canonicalIDs res,
    mapCanonicalIDs 10
      (map_to_list (incoming (adjacencyLists (mkServer mixedLog) None)))
      (adjacencyLists (mkServer mixedLog) None) = Done canonicalIDs
    ∧ (∀ x, x ∈ ({["P"; "Q"]} : gset string) → canonicalIDs !! x = None)
    ∧ OperationsByClient 10
        (map_to_list (incoming (adjacencyLists (mkServer mixedLog) None)))
        (mkServer mixedLog) = Done res
    ∧ ∀ op, length (filter (λ r, subject r ∈ ({["P"; "Q"]} : gset string)
                                 ∧ operation r = op) mixedLog)
            ≤ opCount res "" op.
Proof.
  apply (cycle_members_unresolved mixedLog {["P"; "Q"]} testRank 10).
  - apply (bool_decide_unpack _). vm_compute. exact I.
  - apply (bool_decide_unpack _). vm_compute. exact I.
  - apply (bool_decide_unpack _). vm_compute. exact I.
  - apply rangeOrder_map_to_list.
Defined.

(** ** The aggregator on the graph of a log *)

(** C6, as stated, fails: [spinLog] is a record sequence, with records of
    subject [X], on which the work loop never empties its stack, so for
    every fuel and every order [OperationsByClient] yields no result whose
    counts could be summed. *)
Lemma OperationsByClient_no_result :
  "X" ∈ subject <$> spinLog
  ∧ ∀ fuel order,
      rangeOrder (incoming (adjacencyLists (mkServer spinLog) None)) order →
      mapCanonicalIDs fuel order (adjacencyLists (mkServer spinLog) None)
      = OutOfFuel
      ∧ OperationsByClient fuel order (mkServer spinLog) = OutOfFuel.
Proof.
  split; [unfold spinLog; set_solver|]. intros fuel order Horder.
  assert (mapCanonicalIDs fuel order (adjacencyLists (mkServer spinLog) None)
          = OutOfFuel) as Hids.
  { unfold mapCanonicalIDs. rewrite rangeIncoming_roots.
    assert (filter (λ ne, ne.2 = None) order = [("R", None)]) as ->.
    { apply Permutation_singleton_r. unfold rangeOrder in Horder.
      rewrite Horder. vm_compute. reflexivity. }
    cbn [rangeIncoming]. rewrite traverse_root.
    assert (walk fuel (adjacencyLists (mkServer spinLog) None) "R" "R" [] ∅
            = OutOfFuel) as ->; [|reflexivity].
    apply (walk_diverges _ (λ n, n ∈ ["R"; "X"; "Y"])); [|left|constructor].
    intros n Hn. repeat (apply elem_of_cons in Hn as [->|Hn]).
    - split; [by vm_compute|]. vm_compute. repeat constructor.
    - split; [by vm_compute|]. vm_compute. repeat constructor.
    - split; [by vm_compute|]. vm_compute. repeat constructor.
    - by apply elem_of_nil in Hn. }
  split; [done|]. unfold OperationsByClient. by rewrite Hids.
Qed.

(** C6, amended.  When the lineage of the log is a DAG, the resolver and
    [OperationsByClient] return (given the fuel of the loops, whatever the
    order of the roots); a client is present in the result exactly when the
    subject of some record resolves to it, and for every client present the
    counts over all operation names add up to the number of records of the
    log whose subject resolves to that client. *)
Theorem OperationsByClient_sums (rs : list record) (rank : string → nat)
    (fuel : nat) (order : list (string * option stringSet)) :
  lineageRanked rank rs →
  fuelFor (adjacencyLists (mkServer rs) None) rank ≤ fuel →
  rangeOrder (incoming (adjacencyLists (mkServer rs) None)) order →
  ∃ canonicalIDs res,
    mapCanonicalIDs fuel order (adjacencyLists (mkServer rs) None)
    = Done canonicalIDs
    ∧ OperationsByClient fuel order (mkServer rs) = Done res
    ∧ (∀ clientID,
         is_Some (res !! clientID)
         ↔ ∃ r, r ∈ rs ∧ resolve canonicalIDs (subject r) = clientID)
    ∧ (∀ clientID ops,
         res !! clientID = Some ops →
         opsTotal ops
         = length (filter (λ r, resolve canonicalIDs (subject r) = clientID)
                          rs)).
Proof.
  intros Hranked Hfuel Horder.
  destruct (mapCanonicalIDs_returns rs rank Hranked fuel order Hfuel Horder)
    as [ids Hids].
  exists ids, (foldl (tally ids) ∅ rs). split_and!.
  - done.
  - unfold OperationsByClient. by rewrite Hids.
  - intros clientID. split.
    + intros [ops Hops]. by apply tally_present in Hops.
    + intros (r & Hr & <-). by apply tally_records.
  - intros clientID ops Hops. rewrite <- tally_total. by rewrite Hops.
Qed.

Lemma OperationsByClient_sums_witness :
  ∃ canonicalIDs res,
    mapCanonicalIDs 50 (map_to_list (incoming testLists)) testLists
    = Done canonicalIDs
    ∧ OperationsByClient 50 (map_to_list (incoming testLists))
        (mkServer testLog) = Done res
    ∧ (∀ clientID,
         is_Some (res !! clientID)
         ↔ ∃ r, r ∈ testLog ∧ resolve canonicalIDs (subject r) = clientID)
    ∧ (∀ clientID ops,
         res !! clientID = Some ops →
         opsTotal ops
         = length (filter (λ r, resolve canonicalIDs (subject r) = clientID)
                          testLog)).
Proof.
  apply (OperationsByClient_sums testLog testRank 50
           (map_to_list (incoming testLists))).
  - apply testLog_ranked.
  - apply testLog_fuel.
  - apply rangeOrder_map_to_list.
Defined.

(** ** Append *)

(** C7.  When the token reader fails, [Append] returns its error wrapped,
    the log is the same and so are the three queries; when it succeeds with
    both claims, [Append] returns no error and the log has grown by the one
    record made of the claims, the operation and the time in seconds. *)
Theorem Append_contract {cause : Type}
    (ParseToken : list Byte.byte → cause + ErfClaims)
    (s : inMemoryERFServer) (token : list Byte.byte) (operation : string)
    (time : Time) :
  (∀ err, ParseToken token = inl err →
     ∃ s', Append ParseToken s token operation time
           = Done (Some (Wrap (External err) "failed to read token"), s')
           ∧ records s' = records s
           ∧ TotalClients s' = TotalClients s
           ∧ (∀ t, RecentClients s' t = RecentClients s t)
           ∧ (∀ fuel order, OperationsByClient fuel order s'
                            = OperationsByClient fuel order s))
  ∧ (∀ claims sub pre,
       ParseToken token = inr claims →
       Subject claims = Some sub → Previous claims = Some pre →
       Append ParseToken s token operation time
       = Done (None,
               mkServer (records s
                         ++ [mkRecord sub pre operation (Unix time)]))).
Proof.
  split.
  - intros err Herr. exists s. unfold Append. rewrite Herr. by split_and!.
  - intros claims sub pre Hclaims Hsub Hpre. unfold Append.
    by rewrite Hclaims, Hsub, Hpre.
Qed.

Lemma Append_contract_witness :
  (∃ s', Append sampleParse (mkServer rotationLog) [] "op" (mkTime 20 0)
         = Done (Some (Wrap (External "empty token") "failed to read token"), s')
         ∧ records s' = rotationLog
         ∧ TotalClients s' = TotalClients (mkServer rotationLog)
         ∧ (∀ t, RecentClients s' t = RecentClients (mkServer rotationLog) t)
         ∧ (∀ fuel order, OperationsByClient fuel order s'
                          = OperationsByClient fuel order (mkServer rotationLog)))
  ∧ Append sampleParse (mkServer rotationLog) [Byte.x2e] "op" (mkTime 20 0)
    = Done (None, mkServer (rotationLog ++ [mkRecord "B" "A" "op" 20])).
Proof.
  split.
  - apply (proj1 (Append_contract sampleParse (mkServer rotationLog) [] "op"
                    (mkTime 20 0))). reflexivity.
  - apply (proj2 (Append_contract sampleParse (mkServer rotationLog)
                    [Byte.x2e] "op" (mkTime 20 0))
             (mkClaims (Some "B") (Some "A"))); reflexivity.
Defined.

(** ** The repository's test *)

Example TestCountingClients : TotalClients (mkServer testLog) = 6.
Proof. vm_compute. reflexivity. Qed.

Example TestCountingClientsSince :
  RecentClients (mkServer testLog) (mkTime 2 0) = 3.
Proof. vm_compute. reflexivity. Qed.

Example TestCountOperations :
  match OperationsByClient 50 (map_to_list (incoming testLists))
          (mkServer testLog) with
  | Done res =>
      opCount res "A" "op" = 9 ∧ opCount res "E" "op" = 1
      ∧ opCount res "F" "op" = 3 ∧ opCount res "M" "op" = 1
      ∧ opCount res "?" "op" = 1 ∧ opCount res "J" "op" = 2
  | Panic | OutOfFuel => False
  end.
Proof. vm_compute. by repeat split. Qed.

(** * Further properties *)

(** ** Stack and ordered set *)

Lemma keys_first_occurrences (l : list string) :
  keys (foldl add newStringSet l) = reverse (remove_dups (reverse l)).
Proof.
  induction l as [|x l IH] using rev_ind; [done|].
  rewrite foldl_snoc, add_keys by apply foldl_add_wf.
  rewrite reverse_snoc. cbn [remove_dups].
  destruct (decide_rel elem_of x (reverse l)) as [Hin|Hin].
  - rewrite decide_True; [done|]. apply foldl_add_elem.
    by apply elem_of_reverse.
  - rewrite decide_False.
    + by rewrite reverse_cons, IH.
    + rewrite foldl_add_elem. by rewrite <- elem_of_reverse.
Qed.

(** X1.  [pop] undoes [push] and nothing else: it returns [v] and [s']
    exactly when the stack is [s'] with [v] pushed on it, and it returns the
    nil pointer exactly on the empty stack. *)
Theorem pop_inverts_push (s s' : stringStack) (v : string) :
  (pop s = Some (v, s') ↔ s = push s' v) ∧ (pop s = None ↔ s = []).
Proof.
  split; split.
  - unfold pop, push. destruct (reverse s) as [|x rest] eqn:E; [done|].
    intros [= -> <-]. rewrite <- (reverse_involutive s), E.
    apply reverse_cons.
  - intros ->. apply pop_push.
  - unfold pop. destruct (reverse s) as [|x rest] eqn:E; [|done].
    intros _. by rewrite <- (reverse_involutive s), E.
  - by intros ->.
Qed.

(** X2.  Adding a value twice is adding it once, whatever the set. *)
Theorem add_idempotent (s : stringSet) (val : string) :
  add (add s val) val = add s val.
Proof.
  unfold add at 2 3. destruct (set s !! val) eqn:E.
  - unfold add. by rewrite E.
  - unfold add. cbn. by rewrite lookup_insert_eq.
Qed.

(** X3.  The values of a set filled from empty are the added values in the
    order of their first occurrence, each once. *)
Theorem values_first_occurrences (l : list string) :
  values (foldl add newStringSet l) = reverse (remove_dups (reverse l)).
Proof. apply keys_first_occurrences. Qed.

(** X4.  On a set whose map and key list agree, [add] keeps them in
    agreement, leaves the values already present where they were, and makes
    the values those of before together with the added one. *)
Theorem add_extends (s : stringSet) (val : string) :
  stringSet_wf s →
  stringSet_wf (add s val)
  ∧ values s `prefix_of` values (add s val)
  ∧ ∀ v, v ∈ values (add s val) ↔ v = val ∨ v ∈ values s.
Proof.
  intros Hwf. split_and!.
  - by apply add_wf.
  - unfold values. rewrite add_keys by done.
    case_decide; [done|]. by apply prefix_app_r.
  - intros v. unfold values. rewrite add_keys by done.
    case_decide as Hin.
    + split; [by right|]. by intros [->|?].
    + rewrite elem_of_app, list_elem_of_singleton. tauto.
Qed.

Lemma add_extends_witness :
  stringSet_wf (add (add newStringSet "A") "B")
  ∧ values (add newStringSet "A")
      `prefix_of` values (add (add newStringSet "A") "B")
  ∧ ∀ v, v ∈ values (add (add newStringSet "A") "B")
         ↔ v = "B" ∨ v ∈ values (add newStringSet "A").
Proof.
  apply (add_extends (add newStringSet "A") "B").
  apply add_wf, newStringSet_wf.
Defined.

(** ** The graph and the counts *)

Lemma parents_elem rs k p :
  p ∈ parents (adjacencyLists (mkServer rs) None) k
  ↔ ∃ r, r ∈ rs ∧ subject r = k ∧ previous r = p ∧ p ≠ "".
Proof.
  unfold parents, values. rewrite index_incoming, <- predecessors_elem.
  destruct (setOf (predecessors k rs)) as [s|] eqn:E.
  - by apply setOf_elem.
  - apply setOf_None in E. by rewrite E.
Qed.

Lemma filter_all {A} (P : A → Prop) `{!∀ x, Decision (P x)} (l : list A) :
  (∀ x, x ∈ l → P x) → filter P l = l.
Proof.
  induction l as [|x l IH]; intros HP; [done|].
  rewrite filter_cons_True by (apply HP; left).
  f_equal. apply IH. intros y Hy. apply HP. by right.
Qed.

Lemma filter_none {A} (P : A → Prop) `{!∀ x, Decision (P x)} (l : list A) :
  (∀ x, x ∈ l → ¬ P x) → filter P l = [].
Proof.
  induction l as [|x l IH]; intros HP; [done|].
  rewrite filter_cons_False by (apply HP; left).
  apply IH. intros y Hy. apply HP. by right.
Qed.

Lemma size_list_to_set_le (l : list string) :
  size (list_to_set l : gset string) ≤ length l.
Proof.
  induction l as [|x l IH]; cbn [list_to_set length].
  - by rewrite size_empty.
  - rewrite size_union_alt, size_singleton.
    assert (size (list_to_set l ∖ {[x]} : gset string)
            ≤ size (list_to_set l : gset string)) as Hsub.
    { apply subseteq_size. set_solver. }
    lia.
Qed.

(** X5.  Whatever the time filter, the two maps have the same keys: the
    subjects and the non-empty predecessors of the admitted records. *)
Theorem adjacencyLists_keys (s : inMemoryERFServer) (since : option Time)
    (k : string) :
  dom (incoming (adjacencyLists s since)) = dom (outgoing (adjacencyLists s since))
  ∧ (k ∈ dom (outgoing (adjacencyLists s since))
     ↔ ∃ r, r ∈ admitted since (records s)
            ∧ (subject r = k ∨ (previous r = k ∧ k ≠ ""))).
Proof.
  rewrite adjacencyLists_admitted, dom_incoming, dom_outgoing.
  split; [done|].
  rewrite elem_of_union, !elem_of_list_to_set, list_elem_of_fmap, referenced_elem.
  split.
  - intros [(r & -> & Hr)|(r & Hr & Hp & Hne)]; exists r; eauto.
  - intros (r & Hr & [<-|[Hp Hne]]); [left|right]; eauto.
Qed.

(** X6.  The two maps mirror each other: [p] is listed among the
    predecessors of [c] exactly when [c] is listed among the successors of
    [p], and that is when an admitted record of subject [c] names [p]. *)
Theorem adjacencyLists_mirror (s : inMemoryERFServer) (since : option Time)
    (p c : string) :
  (p ∈ parents (adjacencyLists s since) c
   ↔ c ∈ children (adjacencyLists s since) p)
  ∧ (c ∈ children (adjacencyLists s since) p
     ↔ ∃ r, r ∈ admitted since (records s)
            ∧ subject r = c ∧ previous r = p ∧ p ≠ "").
Proof.
  rewrite adjacencyLists_admitted, parents_elem, children_elem. by split.
Qed.

(** X7.  With a threshold after every record nothing is admitted: both maps
    are empty and [RecentClients] is zero; so it is on the empty store. *)
Theorem RecentClients_after_all (s : inMemoryERFServer) (since : Time) :
  (∀ r, r ∈ records s → (utcTime r < Unix since)%Z) →
  adjacencyLists s (Some since) = mkPair ∅ ∅ ∧ RecentClients s since = 0.
Proof.
  intros Hold.
  assert (adjacencyLists s (Some since) = mkPair ∅ ∅) as Hempty.
  { rewrite adjacencyLists_admitted. unfold admitted.
    rewrite filter_none; [done|]. intros r Hr. cbn.
    rewrite bool_decide_eq_false. specialize (Hold r Hr). lia. }
  split; [done|]. unfold RecentClients. rewrite Hempty. cbn.
  unfold countSinks. by rewrite map_fold_empty.
Qed.

Lemma RecentClients_after_all_witness :
  adjacencyLists (mkServer rotationLog) (Some (mkTime 11 0)) = mkPair ∅ ∅
  ∧ RecentClients (mkServer rotationLog) (mkTime 11 0) = 0.
Proof.
  apply (RecentClients_after_all (mkServer rotationLog) (mkTime 11 0)).
  intros r Hr. cbn in Hr. unfold rotationLog in Hr.
  repeat (apply elem_of_cons in Hr as [->|Hr]); cbn; try lia.
  by apply elem_of_nil in Hr.
Defined.

(** X8.  With a threshold not after any record everything is admitted: the
    filtered graph is the full graph and [RecentClients] is
    [TotalClients]. *)
Theorem RecentClients_before_all (s : inMemoryERFServer) (since : Time) :
  (∀ r, r ∈ records s → (Unix since ≤ utcTime r)%Z) →
  adjacencyLists s (Some since) = adjacencyLists s None
  ∧ RecentClients s since = TotalClients s.
Proof.
  intros Hnew.
  assert (adjacencyLists s (Some since) = adjacencyLists s None) as Heq.
  { rewrite adjacencyLists_admitted. unfold admitted.
    rewrite filter_all; [by destruct s|]. intros r Hr. cbn.
    rewrite bool_decide_eq_false. specialize (Hnew r Hr). lia. }
  split; [done|]. unfold RecentClients, TotalClients. by rewrite Heq.
Qed.

Lemma RecentClients_before_all_witness :
  adjacencyLists (mkServer rotationLog) (Some (mkTime 1 999))
  = adjacencyLists (mkServer rotationLog) None
  ∧ RecentClients (mkServer rotationLog) (mkTime 1 999)
    = TotalClients (mkServer rotationLog).
Proof.
  apply (RecentClients_before_all (mkServer rotationLog) (mkTime 1 999)).
  intros r Hr. cbn in Hr. unfold rotationLog in Hr.
  repeat (apply elem_of_cons in Hr as [->|Hr]); cbn; try lia.
  by apply elem_of_nil in Hr.
Defined.

(** X9.  [TotalClients] is zero exactly when every subject of the log is
    named as predecessor by some record; so it is on the empty store. *)
Theorem TotalClients_zero (rs : list record) :
  TotalClients (mkServer rs) = 0 ↔ ∀ r, r ∈ rs → subject r ∈ referenced rs.
Proof.
  unfold TotalClients. rewrite countSinks_size, sinkSet_outgoing.
  rewrite size_empty_iff. split.
  - intros Hempty r Hr.
    destruct (decide (subject r ∈ referenced rs)) as [|Hno]; [done|].
    exfalso. apply (not_elem_of_empty (C := gset string) (subject r)).
    rewrite <- Hempty, elem_of_difference, !elem_of_list_to_set.
    split; [by apply list_elem_of_fmap_2|done].
  - intros Hall. apply set_equiv. intros k.
    rewrite elem_of_difference, !elem_of_list_to_set, list_elem_of_fmap.
    split; [|by intros ?%not_elem_of_empty].
    intros [(r & -> & Hr) Hno]. exfalso. by apply Hno, Hall.
Qed.

(** X10.  A log that is not empty and whose lineage is a DAG has at least
    one client. *)
Theorem TotalClients_positive (rs : list record) (rank : string → nat) :
  rs ≠ [] → lineageRanked rank rs → 0 < TotalClients (mkServer rs).
Proof.
  intros Hne Hranked. unfold lineageRanked in Hranked.
  rewrite Forall_forall in Hranked.
  assert (∀ n r, r ∈ rs → rank (subject r) ≤ n →
            ∃ k, k ∈ sinkSet (outgoing (adjacencyLists (mkServer rs) None)))
    as Hsink.
  { induction n as [|n IH]; intros r Hr Hrank;
      (destruct (decide (subject r ∈ referenced rs)) as [Href|Href];
       [|exists (subject r); rewrite sinkSet_outgoing, elem_of_difference,
                  !elem_of_list_to_set; split;
                  [by apply list_elem_of_fmap_2|done]]);
      apply referenced_elem in Href as (r' & Hr' & Hp & Hnonempty);
      rewrite <- Hp in Hnonempty;
      pose proof (Hranked r' Hr' Hnonempty) as Hlt; rewrite Hp in Hlt.
    - lia.
    - apply (IH r' Hr'). lia. }
  destruct rs as [|r0 rs']; [done|].
  destruct (Hsink (rank (subject r0)) r0) as [k Hk]; [left|done|].
  unfold TotalClients. rewrite countSinks_size.
  assert ({[k]} ⊆ sinkSet
            (outgoing (adjacencyLists (mkServer (r0 :: rs')) None))) as Hsub
    by set_solver.
  apply subseteq_size in Hsub. rewrite size_singleton in Hsub. lia.
Qed.

Lemma TotalClients_positive_witness : 0 < TotalClients (mkServer testLog).
Proof.
  apply (TotalClients_positive testLog testRank); [done|apply testLog_ranked].
Defined.

(** X11.  Neither count exceeds the number of records it is computed
    from. *)
Theorem clients_at_most_records (s : inMemoryERFServer) (since : Time) :
  TotalClients s ≤ length (records s)
  ∧ RecentClients s since ≤ length (admitted (Some since) (records s))
  ∧ length (admitted (Some since) (records s)) ≤ length (records s).
Proof.
  assert (∀ rs, TotalClients (mkServer rs) ≤ length rs) as Hle.
  { intros rs. unfold TotalClients. rewrite countSinks_size, sinkSet_outgoing.
    etrans; [apply subseteq_size|].
    - apply (subseteq_difference_l _ _ _ (reflexivity _)).
    - etrans; [apply size_list_to_set_le|]. by rewrite length_fmap. }
  split_and!.
  - destruct s as [rs]. apply Hle.
  - rewrite RecentClients_admitted. apply Hle.
  - apply length_filter.
Qed.

Lemma referenced_singleton r :
  referenced [r] = if decide (previous r ≠ "") then [previous r] else [].
Proof.
  unfold referenced. cbn [fmap list_fmap]. by rewrite filter_cons, filter_nil.
Qed.

(** X12.  Appending a record whose subject is new to the log (and is not
    its own predecessor) keeps [TotalClients] when it names a sink as
    predecessor, a rotation of a live client, and adds one otherwise, a new
    client or a branch. *)
Theorem TotalClients_append_fresh (rs : list record) (r : record) :
  ¬ (subject r ∈ subject <$> rs) → ¬ (subject r ∈ referenced rs) →
  previous r ≠ subject r →
  (previous r ≠ "" →
   outgoing (adjacencyLists (mkServer rs) None) !! previous r = Some None →
   TotalClients (mkServer (rs ++ [r])) = TotalClients (mkServer rs))
  ∧ (¬ (previous r ≠ ""
        ∧ outgoing (adjacencyLists (mkServer rs) None) !! previous r
          = Some None) →
     TotalClients (mkServer (rs ++ [r])) = S (TotalClients (mkServer rs))).
Proof.
  intros Hsub Href Hself. unfold TotalClients.
  rewrite !countSinks_size, !sinkSet_outgoing.
  rewrite fmap_app, referenced_app, !list_to_set_app_L, referenced_singleton.
  cbn [fmap list_fmap].
  rewrite <- (elem_of_list_to_set (C := gset string)) in Hsub.
  rewrite <- (elem_of_list_to_set (C := gset string)) in Href.
  setoid_rewrite <- elem_of_sinkSet. rewrite sinkSet_outgoing.
  set (Sj := list_to_set (subject <$> rs) : gset string) in *.
  set (Rf := list_to_set (referenced rs) : gset string) in *.
  split.
  - intros Hne Hsink. rewrite decide_True by done.
    assert ((Sj ∪ list_to_set [subject r]) ∖ (Rf ∪ list_to_set [previous r])
            = (Sj ∖ Rf) ∖ {[previous r]} ∪ {[subject r]}) as ->
      by set_solver.
    rewrite size_union by set_solver.
    rewrite size_difference by set_solver.
    rewrite !size_singleton.
    assert ({[previous r]} ⊆ Sj ∖ Rf) as Hle%subseteq_size by set_solver.
    rewrite size_singleton in Hle. lia.
  - intros Hnot.
    assert ((Sj ∪ list_to_set [subject r])
              ∖ (Rf ∪ list_to_set
                         (if decide (previous r ≠ "") then [previous r] else []))
            = (Sj ∖ Rf) ∪ {[subject r]}) as ->.
    { case_decide as Hne; [|set_solver].
      assert (previous r ∉ Sj ∖ Rf) by tauto. set_solver. }
    rewrite size_union by set_solver. rewrite size_singleton. lia.
Qed.

Lemma TotalClients_append_fresh_witness :
  TotalClients (mkServer (rotationLog ++ [mkRecord "D" "C" "op" 12]))
  = TotalClients (mkServer rotationLog).
Proof.
  apply (proj1 (TotalClients_append_fresh rotationLog
                  (mkRecord "D" "C" "op" 12)
                  ltac:(apply (bool_decide_unpack _); vm_compute; exact I)
                  ltac:(apply (bool_decide_unpack _); vm_compute; exact I)
                  ltac:(done))).
  - done.
  - vm_compute. reflexivity.
Defined.

Lemma countSinksIn_length (order : list (string * option stringSet)) :
  countSinksIn order = length (filter (λ kv, kv.2 = None) order).
Proof.
  unfold countSinksIn.
  assert (∀ a, foldl (λ sinks (kv : string * option stringSet),
                        match kv.2 with None => S sinks | Some _ => sinks end)
                     a order
               = a + length (filter (λ kv, kv.2 = None) order)) as H;
    [|apply (H 0)].
  induction order as [|[k [v|]] order IH]; intros a; cbn [foldl snd].
  - cbn. lia.
  - rewrite filter_cons_False by done. apply IH.
  - rewrite filter_cons_True by done. rewrite IH. cbn. lia.
Qed.

Lemma countSinks_length (m : gmap string (option stringSet)) :
  countSinks m = length (filter (λ kv, kv.2 = None) (map_to_list m)).
Proof.
  unfold countSinks. rewrite map_fold_foldr.
  induction (map_to_list m) as [|[k [v|]] l IH]; cbn [foldr uncurry].
  - done.
  - by rewrite filter_cons_False.
  - rewrite filter_cons_True by done. cbn. by rewrite IH.
Qed.

(** X13.  The count of [countSinks] does not depend on the order in which
    [range] yields the entries of the map. *)
Theorem countSinks_any_order (m : gmap string (option stringSet))
    (order : list (string * option stringSet)) :
  rangeOrder m order → countSinksIn order = countSinks m.
Proof.
  intros Horder. rewrite countSinksIn_length, countSinks_length.
  unfold rangeOrder in Horder. by rewrite Horder.
Qed.

Lemma countSinks_any_order_witness :
  countSinksIn (reverse (map_to_list (outgoing testLists)))
  = countSinks (outgoing testLists).
Proof.
  apply (countSinks_any_order (outgoing testLists)).
  unfold rangeOrder. apply reverse_Permutation.
Defined.

(** ** The resolver *)

Lemma walk_not_panic fuel lists n id todo result :
  walk fuel lists n id todo result ≠ Panic.
Proof.
  revert n id todo result.
  induction fuel as [|fuel IH]; intros n id todo result; [done|].
  cbn [walk]. destruct (reverse (label id (children lists n)) ++ todo)
    as [|[n' id'] todo']; [done|apply IH].
Qed.

Lemma rangeIncoming_not_panic fuel lists order result :
  rangeIncoming fuel lists order result ≠ Panic.
Proof.
  revert result. induction order as [|[node [s|]] order IH]; intros result;
    cbn [rangeIncoming]; [done|apply IH|].
  rewrite traverse_root.
  pose proof (walk_not_panic fuel lists node node [] result) as Hwalk.
  destruct (walk fuel lists node node [] result); [apply IH|done..].
Qed.

(** X14.  The resolver never dereferences the nil pointer: whatever the
    graph, the order and the fuel, [ids] is not empty when it is popped, so
    neither [mapCanonicalIDs] nor [OperationsByClient] panics. *)
Theorem resolver_never_panics (fuel : nat)
    (order : list (string * option stringSet)) (lists : adjacencyListPair)
    (s : inMemoryERFServer) :
  mapCanonicalIDs fuel order lists ≠ Panic
  ∧ OperationsByClient fuel order s ≠ Panic.
Proof.
  split; [apply rangeIncoming_not_panic|].
  unfold OperationsByClient.
  pose proof (rangeIncoming_not_panic fuel (adjacencyLists s None) order ∅) as H.
  unfold mapCanonicalIDs.
  by destruct (rangeIncoming fuel (adjacencyLists s None) order ∅).
Qed.

Section resolved.
Variable rs : list record.
Let lists := adjacencyLists (mkServer rs) None.

Lemma child_incoming p c : c ∈ children lists p → c ∈ dom (incoming lists).
Proof.
  intros (r & Hr & <- & _)%children_elem. by apply subject_incoming.
Qed.

(** What the resolver writes stays inside the graph and below the
    identifier. *)
Lemma mapCanonicalIDs_lineage fuel order res :
  rangeOrder (incoming lists) order →
  mapCanonicalIDs fuel order lists = Done res →
  map_Forall (λ n id, n ∈ dom (incoming lists) ∧ id ∈ dom (incoming lists)
                      ∧ rtc (successorOf lists) id n) res.
Proof.
  intros Horder. apply rangeIncoming_writes.
  - intros n id (Hn & Hid & Hreach).
    destruct (children lists n) as [|c rest] eqn:E; [constructor|].
    assert (∀ c', c' ∈ c :: rest → c' ∈ children lists n) as Hch
      by (intros c' Hc'; by rewrite E).
    cbn [label]. constructor.
    + cbn. split_and!; [|done|].
      * apply (child_incoming n), Hch. left.
      * eapply rtc_r; [done|]. apply Hch. left.
    + apply Forall_fmap, Forall_forall. intros c' Hc'. cbn.
      assert (c' ∈ dom (incoming lists)) as Hd.
      { apply (child_incoming n), Hch. by right. }
      by split_and!.
  - apply Forall_forall. intros [node edges] Hin. cbn. intros ->.
    assert (node ∈ dom (incoming lists)) as Hd.
    { apply elem_of_dom. exists None. by apply (rangeOrder_elem rs order). }
    by split_and!.
  - apply map_Forall_empty.
Qed.

Lemma canonical_of_root n id :
  incoming lists !! n = Some None → canonical lists n id → id = n.
Proof.
  intros Hroot Hc. inversion Hc; subst; [done| |done]. exfalso.
  match goal with
  | H : children _ ?p = _ |- _ =>
      apply (root_not_child rs n p Hroot);
      change (n ∈ children lists p); rewrite H
  end.
  left.
Qed.

Lemma canonical_head n id : canonical lists n id → canonical lists id id.
Proof.
  induction 1 as [n Hroot|p c rest i Hp Hi IH|p c0 rest c Hp Hin].
  - by apply canonical_root.
  - done.
  - by eapply canonical_later.
Qed.
End resolved.

(** X15.  Whenever the resolver returns, each key of the result is a
    fingerprint of the graph and its identifier is the key itself or one of
    its ancestors along the successor links. *)
Theorem canonical_id_is_ancestor (rs : list record) (fuel : nat)
    (order : list (string * option stringSet)) (res : gmap string string)
    (n id : string) :
  rangeOrder (incoming (adjacencyLists (mkServer rs) None)) order →
  mapCanonicalIDs fuel order (adjacencyLists (mkServer rs) None) = Done res →
  res !! n = Some id →
  (n ∈ subject <$> rs ∨ n ∈ referenced rs)
  ∧ rtc (successorOf (adjacencyLists (mkServer rs) None)) id n.
Proof.
  intros Horder Hres Hn.
  destruct (mapCanonicalIDs_lineage rs fuel order res Horder Hres n id Hn)
    as (Hd & _ & Hreach).
  split; [|done]. rewrite dom_incoming in Hd.
  by rewrite elem_of_union, !elem_of_list_to_set in Hd.
Qed.

Lemma canonical_id_is_ancestor_witness :
  ("K" ∈ subject <$> testLog ∨ "K" ∈ referenced testLog)
  ∧ rtc (successorOf testLists) "A" "K".
Proof.
  apply (canonical_id_is_ancestor testLog 50
           (map_to_list (incoming testLists)) testIDs "K" "A").
  - apply rangeOrder_map_to_list.
  - vm_compute. reflexivity.
  - vm_compute. reflexivity.
Defined.

(** X16.  On a log whose lineage is a DAG the keys of the result are
    exactly the fingerprints of the graph: the subjects and the non-empty
    predecessors of the records. *)
Theorem mapCanonicalIDs_keys (rs : list record) (rank : string → nat)
    (fuel : nat) (order : list (string * option stringSet)) :
  lineageRanked rank rs →
  fuelFor (adjacencyLists (mkServer rs) None) rank ≤ fuel →
  rangeOrder (incoming (adjacencyLists (mkServer rs) None)) order →
  ∃ res, mapCanonicalIDs fuel order (adjacencyLists (mkServer rs) None)
         = Done res
         ∧ ∀ k, is_Some (res !! k)
                ↔ k ∈ subject <$> rs ∨ k ∈ referenced rs.
Proof.
  intros Hranked Hfuel Horder.
  destruct (mapCanonicalIDs_returns rs rank Hranked fuel order Hfuel Horder)
    as [res Hres].
  exists res. split; [done|]. intros k.
  rewrite <- !(elem_of_list_to_set (C := gset string)), <- elem_of_union.
  rewrite <- dom_incoming, <- elem_of_dom. split.
  - intros [id Hk]%elem_of_dom.
    by destruct (mapCanonicalIDs_lineage rs fuel order res Horder Hres k id Hk).
  - by apply (mapCanonicalIDs_covers rs rank Hranked fuel order res).
Qed.

Lemma mapCanonicalIDs_keys_witness :
  ∃ res, mapCanonicalIDs 50 (map_to_list (incoming testLists)) testLists
         = Done res
         ∧ ∀ k, is_Some (res !! k)
                ↔ k ∈ subject <$> testLog ∨ k ∈ referenced testLog.
Proof.
  apply (mapCanonicalIDs_keys testLog testRank 50
           (map_to_list (incoming testLists))).
  - apply testLog_ranked.
  - apply testLog_fuel.
  - apply rangeOrder_map_to_list.
Defined.

(** X17.  On a log whose lineage is a DAG every root, a fingerprint whose
    [incoming] entry is the nil pointer, is its own identifier. *)
Theorem roots_identify_themselves (rs : list record) (rank : string → nat)
    (fuel : nat) (order : list (string * option stringSet)) :
  lineageRanked rank rs →
  fuelFor (adjacencyLists (mkServer rs) None) rank ≤ fuel →
  rangeOrder (incoming (adjacencyLists (mkServer rs) None)) order →
  ∃ res, mapCanonicalIDs fuel order (adjacencyLists (mkServer rs) None)
         = Done res
         ∧ ∀ n, incoming (adjacencyLists (mkServer rs) None) !! n = Some None →
                res !! n = Some n.
Proof.
  intros Hranked Hfuel Horder.
  destruct (mapCanonicalIDs_returns rs rank Hranked fuel order Hfuel Horder)
    as [res Hres].
  exists res. split; [done|]. intros n Hroot.
  assert (n ∈ dom (incoming (adjacencyLists (mkServer rs) None))) as Hd
    by (apply elem_of_dom; eauto).
  apply (mapCanonicalIDs_covers rs rank Hranked fuel order res Horder Hres) in Hd.
  apply elem_of_dom in Hd as [id Hid]. rewrite Hid. f_equal.
  apply (canonical_of_root rs n id Hroot).
  by apply (mapCanonicalIDs_canonical _ fuel order res Horder Hres).
Qed.

Lemma roots_identify_themselves_witness :
  ∃ res, mapCanonicalIDs 50 (map_to_list (incoming testLists)) testLists
         = Done res
         ∧ ∀ n, incoming testLists !! n = Some None → res !! n = Some n.
Proof.
  apply (roots_identify_themselves testLog testRank 50
           (map_to_list (incoming testLists))).
  - apply testLog_ranked.
  - apply testLog_fuel.
  - apply rangeOrder_map_to_list.
Defined.

(** X18.  On a log whose lineage is a forest every identifier is a key
    that maps to itself: resolving an identifier again changes nothing. *)
Theorem canonical_ids_are_fixed (rs : list record) (rank : string → nat)
    (fuel : nat) (order : list (string * option stringSet)) :
  lineageRanked rank rs → lineageForest rs →
  fuelFor (adjacencyLists (mkServer rs) None) rank ≤ fuel →
  rangeOrder (incoming (adjacencyLists (mkServer rs) None)) order →
  ∃ res, mapCanonicalIDs fuel order (adjacencyLists (mkServer rs) None)
         = Done res
         ∧ ∀ n id, res !! n = Some id → res !! id = Some id.
Proof.
  intros Hranked Hforest Hfuel Horder.
  destruct (mapCanonicalIDs_returns rs rank Hranked fuel order Hfuel Horder)
    as [res Hres].
  pose proof (mapCanonicalIDs_canonical _ fuel order res Horder Hres) as Hcan.
  exists res. split; [done|]. intros n id Hn.
  destruct (mapCanonicalIDs_lineage rs fuel order res Horder Hres n id Hn)
    as (_ & Hd & _).
  apply (mapCanonicalIDs_covers rs rank Hranked fuel order res Horder Hres) in Hd.
  apply elem_of_dom in Hd as [j Hj]. rewrite Hj. f_equal.
  apply (canonical_functional rs Hforest id); [by apply Hcan|].
  apply canonical_head with n. by apply Hcan.
Qed.

Lemma canonical_ids_are_fixed_witness :
  ∃ res, mapCanonicalIDs 50 (map_to_list (incoming testLists)) testLists
         = Done res
         ∧ ∀ n id, res !! n = Some id → res !! id = Some id.
Proof.
  apply (canonical_ids_are_fixed testLog testRank 50
           (map_to_list (incoming testLists))).
  - apply testLog_ranked.
  - apply testLog_forest.
  - apply testLog_fuel.
  - apply rangeOrder_map_to_list.
Defined.

(** X19.  On a log whose lineage is a forest the result does not depend on
    the order in which [range] yields the roots. *)
Theorem mapCanonicalIDs_any_order (rs : list record) (rank : string → nat)
    (fuel : nat) (order1 order2 : list (string * option stringSet)) :
  lineageRanked rank rs → lineageForest rs →
  fuelFor (adjacencyLists (mkServer rs) None) rank ≤ fuel →
  rangeOrder (incoming (adjacencyLists (mkServer rs) None)) order1 →
  rangeOrder (incoming (adjacencyLists (mkServer rs) None)) order2 →
  ∃ res, mapCanonicalIDs fuel order1 (adjacencyLists (mkServer rs) None)
         = Done res
         ∧ mapCanonicalIDs fuel order2 (adjacencyLists (mkServer rs) None)
           = Done res.
Proof.
  intros Hranked Hforest Hfuel Horder1 Horder2.
  destruct (mapCanonicalIDs_returns rs rank Hranked fuel order1 Hfuel Horder1)
    as [res1 Hres1].
  destruct (mapCanonicalIDs_returns rs rank Hranked fuel order2 Hfuel Horder2)
    as [res2 Hres2].
  exists res1. split; [done|]. rewrite Hres2. f_equal.
  apply map_eq. intros k.
  pose proof (mapCanonicalIDs_canonical _ fuel order1 res1 Horder1 Hres1) as Hc1.
  pose proof (mapCanonicalIDs_canonical _ fuel order2 res2 Horder2 Hres2) as Hc2.
  pose proof (mapCanonicalIDs_lineage rs fuel order1 res1 Horder1 Hres1) as Hl1.
  pose proof (mapCanonicalIDs_lineage rs fuel order2 res2 Horder2 Hres2) as Hl2.
  pose proof (mapCanonicalIDs_covers rs rank Hranked fuel order1 res1
                Horder1 Hres1 k) as Hv1.
  pose proof (mapCanonicalIDs_covers rs rank Hranked fuel order2 res2
                Horder2 Hres2 k) as Hv2.
  destruct (res1 !! k) as [i|] eqn:E1, (res2 !! k) as [j|] eqn:E2.
  - f_equal. symmetry.
    apply (canonical_functional rs Hforest k); [by apply Hc1|by apply Hc2].
  - destruct (Hl1 k i E1) as (Hd & _). apply Hv2, elem_of_dom in Hd as [? Hd].
    by rewrite E2 in Hd.
  - destruct (Hl2 k j E2) as (Hd & _). apply Hv1, elem_of_dom in Hd as [? Hd].
    by rewrite E1 in Hd.
  - done.
Qed.

Lemma mapCanonicalIDs_any_order_witness :
  ∃ res, mapCanonicalIDs 50 (map_to_list (incoming testLists)) testLists
         = Done res
         ∧ mapCanonicalIDs 50 (reverse (map_to_list (incoming testLists)))
             testLists = Done res.
Proof.
  apply (mapCanonicalIDs_any_order testLog testRank 50).
  - apply testLog_ranked.
  - apply testLog_forest.
  - apply testLog_fuel.
  - apply rangeOrder_map_to_list.
  - unfold rangeOrder. apply reverse_Permutation.
Defined.

(** ** The aggregator and the log *)

Lemma opsTotal_empty : opsTotal ∅ = 0.
Proof. unfold opsTotal. by rewrite map_fold_empty. Qed.

Lemma grandTotal_tally canonicalIDs result r :
  grandTotal (tally canonicalIDs result r) = S (grandTotal result).
Proof.
  unfold tally, grandTotal.
  set (clientID := default "" (canonicalIDs !! subject r)).
  assert (∀ z1 z2 : gmap string nat, ∀ y : nat,
            opsTotal z1 + (opsTotal z2 + y) = opsTotal z2 + (opsTotal z1 + y))
    as Hcomm by (intros; lia).
  destruct (result !! clientID) as [ops|] eqn:E;
    change (default ∅ (Some ?m)) with m; change (default ∅ None) with (∅ : gmap string nat).
  - rewrite <- insert_delete_eq.
    rewrite map_fold_insert_L; [|intros; apply Hcomm|apply lookup_delete_eq].
    rewrite (map_fold_delete_L _ _ clientID ops result);
      [|intros; apply Hcomm|done].
    cbn beta. rewrite opsTotal_increment. lia.
  - rewrite map_fold_insert_L; [|intros; apply Hcomm|done].
    cbn beta. rewrite opsTotal_increment, opsTotal_empty. lia.
Qed.

Section tallies.
Variable canonicalIDs : gmap string string.

Lemma tally_positive rs :
  map_Forall (λ _ ops, map_Forall (λ _ n, 0 < n) ops)
             (foldl (tally canonicalIDs) ∅ rs).
Proof.
  induction rs as [|r rs IH] using rev_ind; [apply map_Forall_empty|].
  rewrite foldl_snoc. unfold tally at 1. apply map_Forall_insert_2; [|done].
  apply map_Forall_insert_2; [lia|].
  destruct (foldl (tally canonicalIDs) ∅ rs
              !! default "" (canonicalIDs !! subject r)) as [ops|] eqn:E.
  - by apply IH in E.
  - apply map_Forall_empty.
Qed.

Lemma tally_grandTotal rs :
  grandTotal (foldl (tally canonicalIDs) ∅ rs) = length rs.
Proof.
  induction rs as [|r rs IH] using rev_ind.
  - unfold grandTotal. cbn. by rewrite map_fold_empty.
  - rewrite foldl_snoc, grandTotal_tally, IH, length_app. cbn. lia.
Qed.
End tallies.

(** X20.  Once the resolver has returned the mapping, the result of
    [OperationsByClient] holds, for each client and operation, the number of
    records of that operation whose subject resolves to that client; a
    client is present exactly when some record resolves to it, and no count
    stored is zero. *)
Theorem OperationsByClient_counts (s : inMemoryERFServer) (fuel : nat)
    (order : list (string * option stringSet))
    (canonicalIDs : gmap string string) :
  mapCanonicalIDs fuel order (adjacencyLists s None) = Done canonicalIDs →
  ∃ res, OperationsByClient fuel order s = Done res
    ∧ (∀ clientID op,
         opCount res clientID op
         = length (filter (λ r, resolve canonicalIDs (subject r) = clientID
                                ∧ operation r = op) (records s)))
    ∧ (∀ clientID,
         is_Some (res !! clientID)
         ↔ ∃ r, r ∈ records s ∧ resolve canonicalIDs (subject r) = clientID)
    ∧ (∀ clientID ops op n,
         res !! clientID = Some ops → ops !! op = Some n → 0 < n).
Proof.
  intros Hids. unfold OperationsByClient. rewrite Hids.
  eexists. split; [done|]. split_and!.
  - intros clientID op. apply tally_count.
  - intros clientID. split.
    + intros [ops Hops]. by apply tally_present in Hops.
    + intros (r & Hr & <-). by apply tally_records.
  - intros clientID ops op n Hops Hn.
    by apply (tally_positive canonicalIDs (records s) clientID ops Hops op n).
Qed.

Lemma OperationsByClient_counts_witness :
  ∃ res, OperationsByClient 50 (map_to_list (incoming testLists))
           (mkServer testLog) = Done res
    ∧ (∀ clientID op,
         opCount res clientID op
         = length (filter (λ r, resolve testIDs (subject r) = clientID
                                ∧ operation r = op) testLog))
    ∧ (∀ clientID,
         is_Some (res !! clientID)
         ↔ ∃ r, r ∈ testLog ∧ resolve testIDs (subject r) = clientID)
    ∧ (∀ clientID ops op n,
         res !! clientID = Some ops → ops !! op = Some n → 0 < n).
Proof.
  apply (OperationsByClient_counts (mkServer testLog) 50
           (map_to_list (incoming testLists)) testIDs).
  vm_compute. reflexivity.
Defined.

(** X21.  Once the resolver has returned the mapping, every record of the
    log is counted exactly once: all the counts of the result together are
    the number of records. *)
Theorem OperationsByClient_counts_every_record (s : inMemoryERFServer)
    (fuel : nat) (order : list (string * option stringSet))
    (canonicalIDs : gmap string string) :
  mapCanonicalIDs fuel order (adjacencyLists s None) = Done canonicalIDs →
  ∃ res, OperationsByClient fuel order s = Done res
         ∧ grandTotal res = length (records s).
Proof.
  intros Hids. unfold OperationsByClient. rewrite Hids.
  eexists. split; [done|]. apply tally_grandTotal.
Qed.

Lemma OperationsByClient_counts_every_record_witness :
  ∃ res, OperationsByClient 50 (map_to_list (incoming testLists))
           (mkServer testLog) = Done res
         ∧ grandTotal res = length testLog.
Proof.
  apply (OperationsByClient_counts_every_record (mkServer testLog) 50
           (map_to_list (incoming testLists)) testIDs).
  vm_compute. reflexivity.
Defined.

(** X22.  [Append] only ever appends: when it returns, the log it leaves
    starts with the log it found; with an error nothing changed, without
    one the log is longer by exactly one record. *)
Theorem Append_only_appends {cause : Type}
    (ParseToken : list Byte.byte → cause + ErfClaims)
    (s s' : inMemoryERFServer) (token : list Byte.byte) (operation : string)
    (time : Time) (err : option (error cause)) :
  Append ParseToken s token operation time = Done (err, s') →
  records s `prefix_of` records s'
  ∧ (err ≠ None → s' = s)
  ∧ (err = None → length (records s') = S (length (records s))).
Proof.
  unfold Append. destruct (ParseToken token) as [e|claims].
  - intros [= <- <-]. by split_and!.
  - destruct (Subject claims), (Previous claims); try done.
    intros [= <- <-]. cbn [records]. split_and!.
    + by apply prefix_app_r.
    + done.
    + intros _. rewrite length_app. cbn. lia.
Qed.

Lemma Append_only_appends_witness :
  records (mkServer rotationLog)
    `prefix_of` records (mkServer (rotationLog ++ [mkRecord "B" "A" "op" 20]))
  ∧ ((None : option (error string)) ≠ None →
     mkServer (rotationLog ++ [mkRecord "B" "A" "op" 20]) = mkServer rotationLog)
  ∧ ((None : option (error string)) = None →
     length (records (mkServer (rotationLog ++ [mkRecord "B" "A" "op" 20])))
     = S (length (records (mkServer rotationLog)))).
Proof.
  apply (Append_only_appends sampleParse (mkServer rotationLog)
           (mkServer (rotationLog ++ [mkRecord "B" "A" "op" 20]))
           [Byte.x2e] "op" (mkTime 20 0) None).
  reflexivity.
Defined.

(** ** The sets stored in the graph *)

Lemma setOf_values (l : list string) :
  match setOf l with Some st => values st | None => [] end
  = reverse (remove_dups (reverse l)).
Proof.
  destruct l as [|x l]; [done|]. apply (keys_first_occurrences (x :: l)).
Qed.

(** X23.  Whatever the time filter, the successors stored for a fingerprint
    are the subjects of the admitted records naming it, in the order of
    their first occurrence and each once; the predecessors stored for it
    are, likewise, the non-empty predecessors named by its records. *)
Theorem adjacencyLists_edge_order (s : inMemoryERFServer)
    (since : option Time) (k : string) :
  children (adjacencyLists s since) k
  = reverse (remove_dups
               (reverse (successors k (admitted since (records s)))))
  ∧ parents (adjacencyLists s since) k
    = reverse (remove_dups
                 (reverse (predecessors k (admitted since (records s))))).
Proof.
  rewrite adjacencyLists_admitted. unfold children, parents.
  rewrite index_outgoing, index_incoming. cbn [records].
  split; apply setOf_values.
Qed.

Lemma setOf_values_nil (l : list string) :
  match setOf l with Some st => values st | None => [] end = [] ↔ setOf l = None.
Proof.
  destruct l as [|x l]; [done|]. split; [|done]. intros Hnil. exfalso.
  destruct (setOf_head x l) as [rest Hrest]. cbn [setOf] in Hnil.
  unfold values in Hnil. by rewrite Hrest in Hnil.
Qed.

(** X24.  No set stored in the maps is empty: a key of [outgoing] holds the
    nil pointer, and is counted as a client, exactly when it has no
    successor, and a key of [incoming] holds the nil pointer, and is
    traversed as a root, exactly when it has no predecessor. *)
Theorem nil_entries_have_no_edges (s : inMemoryERFServer)
    (since : option Time) (k : string) :
  (outgoing (adjacencyLists s since) !! k = Some None
   ↔ k ∈ dom (outgoing (adjacencyLists s since))
     ∧ children (adjacencyLists s since) k = [])
  ∧ (incoming (adjacencyLists s since) !! k = Some None
     ↔ k ∈ dom (incoming (adjacencyLists s since))
       ∧ parents (adjacencyLists s since) k = []).
Proof.
  rewrite adjacencyLists_admitted. unfold children, parents.
  rewrite !lookup_index, index_outgoing, index_incoming.
  rewrite !setOf_values_nil. split; case_decide.
  - split; [intros [= ->]; by split|by intros [_ ->]].
  - split; [done|by intros [? _]].
  - split; [intros [= ->]; by split|by intros [_ ->]].
  - split; [done|by intros [? _]].
Qed.

(** ** Cycles below a root *)

Lemma walk_stuck lists (D : string → Prop) :
  (∀ n, D n → ∃ c, c ∈ children lists n ∧ D c) →
  ∀ fuel n id todo result,
    D n ∨ (∃ m, m ∈ todo.*1 ∧ D m) →
    walk fuel lists n id todo result = OutOfFuel.
Proof.
  intros Hstep. induction fuel as [|fuel IH]; intros n id todo result Hinv;
    [done|].
  cbn [walk].
  assert (∃ m, m ∈ (reverse (label id (children lists n)) ++ todo).*1 ∧ D m)
    as (m & Hm & HD).
  { rewrite fmap_app, fmap_reverse, label_fst.
    destruct Hinv as [Hn|(m & Hm & HD)].
    - destruct (Hstep n Hn) as (c & Hc & HD). exists c. split; [|done].
      apply elem_of_app. left. by apply elem_of_reverse.
    - exists m. split; [|done]. apply elem_of_app. by right. }
  destruct (reverse (label id (children lists n)) ++ todo)
    as [|[n' id'] todo'].
  - by apply elem_of_nil in Hm.
  - apply IH. cbn in Hm. apply elem_of_cons in Hm as [->|Hm]; eauto.
Qed.

Lemma walk_reaches_cycle lists (C : string → Prop) n c fuel id todo result :
  (∀ n, C n → ∃ c, c ∈ children lists n ∧ C c) →
  rtc (successorOf lists) n c → C c →
  walk fuel lists n id todo result = OutOfFuel.
Proof.
  intros Hcycle Hreach Hc.
  apply (walk_stuck lists (λ m, ∃ c, rtc (successorOf lists) m c ∧ C c)).
  - intros m (c' & Hm & Hc'). destruct Hm as [m|m m' c' Hstep Hrest].
    + destruct (Hcycle m Hc') as (c'' & Hin & HC). exists c''.
      split; [done|]. exists c''. by split.
    + exists m'. split; [done|]. eauto.
  - left. eauto.
Qed.

(** X25.  The work loop keeps no record of the nodes it has visited: when a
    set of fingerprints, each with a successor in the set, can be reached
    from a root, the resolver does not return, whatever the fuel and the
    order of the roots. *)
Theorem resolver_loops_on_reachable_cycle (lists : adjacencyListPair)
    (order : list (string * option stringSet)) (C : string → Prop)
    (root c : string) (fuel : nat) :
  (∀ n, C n → ∃ c', c' ∈ children lists n ∧ C c') →
  (root, None) ∈ order →
  rtc (successorOf lists) root c → C c →
  mapCanonicalIDs fuel order lists = OutOfFuel.
Proof.
  intros Hcycle Hroot Hreach Hc. unfold mapCanonicalIDs.
  generalize (∅ : gmap string string) as result.
  induction order as [|[node [s|]] order IH]; intros result.
  - by apply elem_of_nil in Hroot.
  - cbn [rangeIncoming]. apply IH.
    by apply elem_of_cons in Hroot as [?|?].
  - cbn [rangeIncoming]. rewrite traverse_root.
    apply elem_of_cons in Hroot as [[= <-]|Hroot].
    + by rewrite (walk_reaches_cycle lists C root c).
    + pose proof (walk_not_panic fuel lists node node [] result) as Hnp.
      destruct (walk fuel lists node node [] result); [by apply IH|done..].
Qed.

Lemma resolver_loops_on_reachable_cycle_witness :
  mapCanonicalIDs 1000
    (map_to_list (incoming (adjacencyLists (mkServer loopLog) None)))
    (adjacencyLists (mkServer loopLog) None) = OutOfFuel.
Proof.
  apply (resolver_loops_on_reachable_cycle
           (adjacencyLists (mkServer loopLog) None)
           (map_to_list (incoming (adjacencyLists (mkServer loopLog) None)))
           (λ n, n ∈ ["X"; "Y"]) "R" "X" 1000).
  - intros n Hn. repeat (apply elem_of_cons in Hn as [->|Hn]).
    + exists "Y". split; [|set_solver]. vm_compute. repeat constructor.
    + exists "X". split; [|set_solver]. vm_compute. repeat constructor.
    + by apply elem_of_nil in Hn.
  - apply elem_of_map_to_list. vm_compute. reflexivity.
  - apply rtc_once. unfold successorOf. vm_compute. repeat constructor.
  - set_solver.
Defined.

(** ** The order of arrival *)

(** X26.  Both counts depend on the records stored, not on the order in
    which they arrived. *)
Theorem clients_any_arrival_order (rs1 rs2 : list record) (since : Time) :
  rs1 ≡ₚ rs2 →
  TotalClients (mkServer rs1) = TotalClients (mkServer rs2)
  ∧ RecentClients (mkServer rs1) since = RecentClients (mkServer rs2) since.
Proof.
  intros Hperm.
  assert (∀ l1 l2, l1 ≡ₚ l2 →
            TotalClients (mkServer l1) = TotalClients (mkServer l2)) as Htotal.
  { intros l1 l2 Hl. unfold TotalClients.
    rewrite !countSinks_size, !sinkSet_outgoing. unfold referenced.
    by rewrite Hl. }
  split; [by apply Htotal|].
  rewrite !RecentClients_admitted. apply Htotal. cbn [records].
  unfold admitted. by rewrite Hperm.
Qed.

Lemma clients_any_arrival_order_witness :
  TotalClients (mkServer testLog) = TotalClients (mkServer (reverse testLog))
  ∧ RecentClients (mkServer testLog) (mkTime 2 0)
    = RecentClients (mkServer (reverse testLog)) (mkTime 2 0).
Proof.
  apply (clients_any_arrival_order testLog (reverse testLog) (mkTime 2 0)).
  symmetry. apply reverse_Permutation.
Defined.
